(** * Publication ranking: citation-rate ranking and co-author resolution

    A shallow embedding of [src/app/main.py] (the OpenAlex author profile
    service) and the properties of its aggregation and ranking pipeline.

    Conventions of the embedding:
    - Python [int] is [Z]; counters that start at 0 and are only
      incremented are [nat].
    - Python [str] is [string]; the byte-wise lexicographic order of
      [String.compare] coincides with Python's code-point order on UTF-8
      encoded text.  Case folding and white space are the ASCII ones.
    - [a / b] on two ints (true division) is the exact quotient in [Q]; a
      zero divisor raises, which is [None].  The rounding of the quotient to
      a double and the [OverflowError] beyond the range of doubles are not
      part of the embedding.
    - A Python [dict] (and [Counter]) iterates in insertion order, which the
      sort and [most_common] observe: it is an association list whose keys
      are kept unique by [dict_set].
    - [list.sort(key=..., reverse=True)] is a stable sort into descending
      key order; it is embedded as a stable insertion sort, the output of a
      stable sort being determined by the key order alone. *)

From Stdlib Require Import List ZArith QArith Lia Bool Arith.
From Stdlib Require Import Ascii String.
From Stdlib Require Import Sorting.Sorted Sorting.Permutation.
Import ListNotations.

Local Open Scope string_scope.
Local Open Scope Z_scope.

(** ** Python primitives *)

Module Py.

(** *** Strings *)

(** [str.isspace] on an ASCII character: TAB, LF, VT, FF, CR, FS, GS, RS,
    US and SPACE.  The regular expression class [\s] is the same set. *)
Definition is_space (c : ascii) : bool :=
  let n := N_of_ascii c in
  ((9 <=? n) && (n <=? 13) || (28 <=? n) && (n <=? 32))%N.

Definition lower_ascii (c : ascii) : ascii :=
  let n := N_of_ascii c in
  if ((65 <=? n) && (n <=? 90))%N then ascii_of_N (n + 32) else c.

(** [s.lower()] *)
Fixpoint lower (s : string) : string :=
  match s with
  | EmptyString => EmptyString
  | String c s' => String (lower_ascii c) (lower s')
  end.

Fixpoint lstrip (s : string) : string :=
  match s with
  | EmptyString => EmptyString
  | String c s' => if is_space c then lstrip s' else s
  end.

Fixpoint rstrip (s : string) : string :=
  match s with
  | EmptyString => EmptyString
  | String c s' =>
      match rstrip s' with
      | EmptyString => if is_space c then EmptyString else String c EmptyString
      | r => String c r
      end
  end.

(** [s.strip()] *)
Definition strip (s : string) : string := rstrip (lstrip s).

(** [re.sub(r"\s+", " ", s)]: every maximal run of white space becomes
    one space.  [in_run] tells that the previous character was white space,
    whose run has already been replaced. *)
Fixpoint collapse_from (in_run : bool) (s : string) : string :=
  match s with
  | EmptyString => EmptyString
  | String c s' =>
      if is_space c
      then if in_run then collapse_from true s'
           else String " "%char (collapse_from true s')
      else String c (collapse_from false s')
  end.

Definition collapse_ws (s : string) : string := collapse_from false s.

(** [s.startswith(p)] *)
Definition startswith (p s : string) : bool := String.prefix p s.

(** [sep.join(l)] *)
Fixpoint join (sep : string) (l : list string) : string :=
  match l with
  | [] => ""
  | [x] => x
  | x :: l' => x ++ sep ++ join sep l'
  end.

(** Truthiness of an optional string: [None] and [""] are false. *)
Definition truthy (o : option string) : option string :=
  match o with
  | Some s => if String.eqb s "" then None else Some s
  | None => None
  end.

(** [o or d] for an optional string. *)
Definition str_or (o : option string) (d : string) : string :=
  match truthy o with Some s => s | None => d end.

(** *** Slices *)

(** [l[:n]]: a negative bound counts from the end. *)
Definition slice_to {A} (n : Z) (l : list A) : list A :=
  if 0 <=? n then firstn (Z.to_nat n) l
  else firstn (List.length l - Z.to_nat (- n)) l.

(** *** Dictionaries in insertion order *)

Definition dict (V : Type) : Type := list (string * V).

Fixpoint dict_get {V} (k : string) (d : dict V) : option V :=
  match d with
  | [] => None
  | (k', v) :: d' => if String.eqb k k' then Some v else dict_get k d'
  end.

(** [d[k] = v]: an existing key keeps its place, a new key goes last. *)
Fixpoint dict_set {V} (k : string) (v : V) (d : dict V) : dict V :=
  match d with
  | [] => [(k, v)]
  | (k', v') :: d' =>
      if String.eqb k k' then (k, v) :: d' else (k', v') :: dict_set k v d'
  end.

Definition dict_mem {V} (k : string) (d : dict V) : bool :=
  match dict_get k d with Some _ => true | None => false end.

Definition keys {V} (d : dict V) : list string := map fst d.

(** [Counter]: a missing key counts 0. *)
Definition counter := dict nat.

Definition counter_get (k : string) (c : counter) : nat :=
  match dict_get k c with Some n => n | None => O end.

(** [c[k] += 1] *)
Definition counter_incr (k : string) (c : counter) : counter :=
  dict_set k (S (counter_get k c)) c.

(** [c.most_common(1)]: the first entry, in insertion order, that holds the
    greatest count ([max] keeps the first maximal element). *)
Fixpoint first_max (best : string * nat) (l : list (string * nat))
  : string * nat :=
  match l with
  | [] => best
  | e :: l' => first_max (if (snd best <? snd e)%nat then e else best) l'
  end.

Definition most_common_1 (c : counter) : option (string * nat) :=
  match c with
  | [] => None
  | e :: l => Some (first_max e l)
  end.

(** *** Ordering and sorting *)

(** The rich comparison of a key type, as a three-way comparison. *)
Class Ord (K : Type) := { cmp : K -> K -> comparison }.

#[export] Instance ord_Z : Ord Z := {| cmp := Z.compare |}.
#[export] Instance ord_nat : Ord nat := {| cmp := Nat.compare |}.
#[export] Instance ord_Q : Ord Q := {| cmp := Qcompare |}.
#[export] Instance ord_str : Ord string := {| cmp := String.compare |}.

(** Tuples compare lexicographically. *)
#[export] Instance ord_pair {A B} `{Ord A} `{Ord B} : Ord (A * B) :=
  {| cmp := fun p q =>
       match cmp (fst p) (fst q) with
       | Eq => cmp (snd p) (snd q)
       | r => r
       end |}.

(** [a < b] *)
Definition lt_b {K} `{Ord K} (a b : K) : bool :=
  match cmp a b with Lt => true | _ => false end.

Section Sort.
Context {A K : Type} `{Ord K} (key : A -> K).

(** [x] goes in front of the first element whose key is not greater. *)
Fixpoint insert_desc (x : A) (l : list A) : list A :=
  match l with
  | [] => [x]
  | y :: l' =>
      if lt_b (key x) (key y) then y :: insert_desc x l' else x :: l
  end.

(** [l.sort(key=key, reverse=True)] *)
Definition sort_desc (l : list A) : list A := fold_right insert_desc [] l.

(** [ge_key x y]: the key of [x] is not smaller than the key of [y]. *)
Definition ge_key (x y : A) : Prop := cmp (key x) (key y) <> Lt.

End Sort.

End Py.

Import Py.

(** ** Data model *)

(** The [author] object of an authorship. *)
Record Author := {
  au_id : option string;
  au_display_name : option string
}.

(** [a.get("author") or {}]: a missing author has no field. *)
Record Authorship := { author : option Author }.

Definition no_author : Author := {| au_id := None; au_display_name := None |}.

Definition author_of (a : Authorship) : Author :=
  match author a with Some x => x | None => no_author end.

(** A raw work of the source, restricted to the fields the rankings read
    (the DOI and the venue are carried along by [normalize_work] and read by
    the rendering only). *)
Record RawWork := {
  raw_id : option string;
  raw_title : option string;
  publication_year : option Z;
  cited_by_count : option Z;
  work_type : option string;
  authorships : option (list Authorship)
}.

(** The dictionary built by [normalize_work]. *)
Record Work := {
  w_id : option string;
  w_title : option string;
  w_authors : string;
  w_year : option Z;
  w_citations : Z;
  w_type : option string
}.

(** [item = dict(w); item["citation_rate"] = rate] *)
Record Rated := { r_work : Work; citation_rate_of : Q }.

(** An entry of the co-author ranking. *)
Record Coauthor := {
  name_key : string;
  name : string;
  count : nat;
  author_id : option string;
  merged_ids : nat
}.

(** ** Paginated fetcher *)

Record Request := {
  req_filter : string;
  req_per_page : Z;
  req_cursor : string
}.

Record Response := {
  status_code : Z;
  text : string;
  results : list RawWork;
  next_cursor : option string
}.

(** A page source answers the [n]-th request. *)
Definition Source : Type := nat -> Request -> Response.

Inductive outcome (A : Type) : Type :=
| Returned (a : A)
| Raised (status : Z) (upstream : Z) (detail : string)
| OutOfFuel.
Arguments Returned {A} a.
Arguments Raised {A} status upstream detail.
Arguments OutOfFuel {A}.

Definition OPENALEX_ID_PREFIX : string := "https://openalex.org/".

(** The [while True] loop of [fetch_openalex_works]; one unit of fuel per
    request. *)
Fixpoint fetch_loop (fuel : nat) (src : Source) (author : string)
  (per_page : Z) (n : nat) (cursor : string) (works : list RawWork)
  : outcome (list RawWork) :=
  match fuel with
  | O => OutOfFuel
  | S fuel' =>
      let r := src n {| req_filter := "authorships.author.id:" ++ author;
                        req_per_page := per_page;
                        req_cursor := cursor |} in
      if negb (status_code r =? 200)
      then Raised 502 (status_code r) (substring 0 200 (text r))
      else
        let works' := (works ++ results r)%list in
        match truthy (next_cursor r) with
        | None => Returned works'
        | Some next =>
            if 15000 <? Z.of_nat (List.length works')
            then Returned works'
            else fetch_loop fuel' src author per_page (S n) next works'
        end
  end.

Definition fetch_openalex_works (fuel : nat) (src : Source)
  (author_id : string) (per_page : Z) : outcome (list RawWork) :=
  let author :=
    if startswith "http" author_id then author_id
    else OPENALEX_ID_PREFIX ++ author_id in
  fetch_loop fuel src author per_page O "*" [].

(** ** Record normalizer *)

Definition MAX_AUTHORS_DISPLAY : Z := 12.

(** The [names] list of [extract_authors_list]. *)
Fixpoint author_names (l : list Authorship) : list string :=
  match l with
  | [] => []
  | a :: l' =>
      match truthy (au_display_name (author_of a)) with
      | Some n => n :: author_names l'
      | None => author_names l'
      end
  end.

Definition authorships_of (w : RawWork) : list Authorship :=
  match authorships w with Some l => l | None => [] end.

Definition extract_authors_list (raw_work : RawWork) (max_authors : Z)
  : string :=
  let names := author_names (authorships_of raw_work) in
  match names with
  | [] => ""
  | _ =>
      if Z.of_nat (List.length names) <=? max_authors
      then join ", " names
      else join ", " (slice_to max_authors names) ++ ", et al."
  end.

Definition normalize_work (w : RawWork) : Work :=
  {| w_id := raw_id w;
     w_title := raw_title w;
     w_authors := extract_authors_list w MAX_AUTHORS_DISPLAY;
     w_year := publication_year w;
     w_citations := match cited_by_count w with Some c => c | None => 0 end;
     w_type := work_type w |}.

(** ** Citation-rate ranker *)

(** [a / b] on ints: [ZeroDivisionError] is [None]; the quotient is exact
    and unbounded. *)
Definition truediv (a b : Z) : option Q :=
  if b =? 0 then None else Some (inject_Z a / inject_Z b)%Q.

Definition citation_rate (citations year now_year : Z) : option Q :=
  let age := Z.max 0 (now_year - year) in
  truediv citations (1 + age).

(** The loop of [compute_rate_ranking] that fills [rated]; works without an
    int year are skipped, an exception aborts the loop. *)
Fixpoint rate_works (now : Z) (works : list Work) : option (list Rated) :=
  match works with
  | [] => Some []
  | w :: ws =>
      match w_year w with
      | None => rate_works now ws
      | Some y =>
          match citation_rate (w_citations w) y now with
          | None => None
          | Some rate =>
              match rate_works now ws with
              | None => None
              | Some rated =>
                  Some ({| r_work := w; citation_rate_of := rate |} :: rated)
              end
          end
      end
  end.

(** The sort key [(citation_rate, citations, year, title or "")]. *)
Definition rate_key (x : Rated) : Q * (Z * (Z * string)) :=
  (citation_rate_of x,
   (w_citations (r_work x),
    (match w_year (r_work x) with Some y => y | None => 0 end,
     str_or (w_title (r_work x)) ""))).

Definition TOP_PAPERS : Z := 30.
Definition TOP_COAUTHORS : Z := 30.

(** [now] is the value of [current_year()]. *)
Definition compute_rate_ranking (now : Z) (works : list Work) (top_n : Z)
  : option (list Rated) :=
  match rate_works now works with
  | None => None
  | Some rated => Some (slice_to top_n (sort_desc rate_key rated))
  end.

(** ** Co-author resolver and ranker *)

Definition _canonical_author_id (openalex_author_id : string) : string :=
  if startswith "http" openalex_author_id then openalex_author_id
  else OPENALEX_ID_PREFIX ++ openalex_author_id.

Definition is_published_article (raw_work : RawWork) : bool :=
  String.eqb (strip (lower (str_or (work_type raw_work) ""))) "article".

Definition normalize_person_name (name : string) : string :=
  if String.eqb name "" then ""
  else collapse_ws (lower (strip name)).

(** The three tables filled by the scan. *)
Record Tables := {
  name_counts : counter;
  name_display : dict string;
  name_ids : dict counter
}.

Definition empty_tables : Tables :=
  {| name_counts := []; name_display := []; name_ids := [] |}.

(** [name_ids[key][aid] += 1] on a [defaultdict(Counter)]. *)
Definition ids_incr (key aid : string) (d : dict counter) : dict counter :=
  dict_set key
    (counter_incr aid (match dict_get key d with Some c => c | None => [] end))
    d.

(** The display name kept for a key: the first one seen, replaced by each
    strictly longer one. *)
Definition display_update (key disp : string) (d : dict string)
  : dict string :=
  match dict_get key d with
  | None => dict_set key disp d
  | Some old =>
      if (String.length old <? String.length disp)%nat
      then dict_set key disp d else d
  end.

(** The body of the inner loop, for one authorship. *)
Definition scan_authorship (main_id : string) (t : Tables) (a : Authorship)
  : Tables :=
  let au := author_of a in
  match truthy (au_id au) with
  | None => t
  | Some aid =>
      if String.eqb aid main_id then t
      else
        let disp := str_or (au_display_name au) "Unknown" in
        let key := normalize_person_name disp in
        if String.eqb key "" then t
        else {| name_counts := counter_incr key (name_counts t);
                name_display := display_update key disp (name_display t);
                name_ids := ids_incr key aid (name_ids t) |}
  end.

Definition scan_work (main_id : string) (t : Tables) (w : RawWork)
  : Tables :=
  fold_left (scan_authorship main_id) (authorships_of w) t.

Definition scan_works (main_id : string) (article_works : list RawWork)
  : Tables :=
  fold_left (scan_work main_id) article_works empty_tables.

(** The entry built for one [(key, c)] of [name_counts.items()]. *)
Definition make_item (t : Tables) (kc : string * nat) : Coauthor :=
  let key := fst kc in
  {| name_key := key;
     name := match dict_get key (name_display t) with
             | Some d => d
             | None => "Unknown"
             end;
     count := snd kc;
     author_id := match dict_get key (name_ids t) with
                  | Some c => option_map fst (most_common_1 c)
                  | None => None
                  end;
     merged_ids := match dict_get key (name_ids t) with
                   | Some c => List.length c
                   | None => O
                   end |}.

(** The sort key [(count, name)]. *)
Definition coauthor_key (x : Coauthor) : nat * string := (count x, name x).

(** The sorted [items], before the slice. *)
Definition coauthor_items (raw_works : list RawWork) (main_author_id : string)
  : list Coauthor :=
  let main_id := _canonical_author_id main_author_id in
  let article_works := filter is_published_article raw_works in
  let t := scan_works main_id article_works in
  sort_desc coauthor_key (map (make_item t) (name_counts t)).

Definition compute_coauthor_ranking_articles_only_merge_by_name
  (raw_works : list RawWork) (main_author_id : string) (top_n : Z)
  : list Coauthor * nat :=
  (slice_to top_n (coauthor_items raw_works main_author_id),
   List.length (filter is_published_article raw_works)).

(** ** The ranking route, from the fetched works on *)

Record Ranking := {
  count_works_total : nat;
  count_works_with_year : nat;
  paper_ranking : list Rated;
  coauthor_ranking : list Coauthor;
  counted_article_works : nat
}.

Definition has_year (w : RawWork) : bool :=
  match publication_year w with Some _ => true | None => false end.

Definition ranking (now : Z) (raw : list RawWork) (author_id : string)
  : option Ranking :=
  let works := map normalize_work (filter has_year raw) in
  match compute_rate_ranking now works TOP_PAPERS with
  | None => None
  | Some papers =>
      let co := compute_coauthor_ranking_articles_only_merge_by_name
                  raw author_id TOP_COAUTHORS in
      Some {| count_works_total := List.length raw;
              count_works_with_year := List.length works;
              paper_ranking := papers;
              coauthor_ranking := fst co;
              counted_article_works := snd co |}
  end.

(** * Vocabulary of the properties *)

Class OrdLaws (K : Type) `{Ord K} : Prop := {
  cmp_antisym : forall a b : K, cmp b a = CompOpp (cmp a b);
  cmp_trans : forall r (a b c : K), cmp a b = r -> cmp b c = r -> cmp a c = r;
  cmp_eq_l : forall a b c : K, cmp a b = Eq -> cmp a c = cmp b c
}.

Definition citations_of (x : Rated) : Z := w_citations (r_work x).

Definition year_of (x : Rated) : Z :=
  match w_year (r_work x) with Some y => y | None => 0 end.

Definition title_of (x : Rated) : string := str_or (w_title (r_work x)) "".

(** [x] may stand before [y] in the paper ranking: a greater rate, or the
    same rate and more citations, or those equal and a later year, or those
    equal too and a title that is not smaller. *)
Definition rate_precedes (x y : Rated) : Prop :=
  (citation_rate_of y < citation_rate_of x)%Q \/
  ((citation_rate_of x == citation_rate_of y)%Q /\
   (citations_of y < citations_of x \/
    (citations_of x = citations_of y /\
     (year_of y < year_of x \/
      (year_of x = year_of y /\
       String.leb (title_of y) (title_of x) = true))))).

Definition work_has_year (w : Work) : bool :=
  match w_year w with Some _ => true | None => false end.

(** The length bound and sign of the rates claimed for every [top_n] and
    every list of publications. *)
Definition rate_ranking_bounds (now : Z) (works : list Work) (top_n : Z)
  : Prop :=
  forall out, compute_rate_ranking now works top_n = Some out ->
    Z.of_nat (List.length out)
      <= Z.min top_n (Z.of_nat (List.length (filter work_has_year works)))
    /\ Forall (fun x => (0 <= citation_rate_of x)%Q) out.

Definition FETCH_CAP : Z := 15000.

(** The fetch comes to an end: some amount of fuel is enough. *)
Definition fetch_terminates (src : Source) (author_id : string) (per_page : Z)
  : Prop :=
  exists fuel, fetch_openalex_works fuel src author_id per_page <> OutOfFuel.

(** The name key under which an authorship is counted; [None] when the
    scan passes over it. *)
Definition counted_key (main_id : string) (a : Authorship) : option string :=
  match truthy (au_id (author_of a)) with
  | None => None
  | Some aid =>
      if String.eqb aid main_id then None
      else
        let key :=
          normalize_person_name
            (str_or (au_display_name (author_of a)) "Unknown") in
        if String.eqb key "" then None else Some key
  end.

Definition counted_as (main_id key : string) (a : Authorship) : bool :=
  match counted_key main_id a with
  | Some k => String.eqb k key
  | None => false
  end.

(** The name key and the identifier under which an authorship is counted. *)
Definition counted_pair (main_id : string) (a : Authorship)
  : option (string * string) :=
  match truthy (au_id (author_of a)) with
  | None => None
  | Some aid =>
      if String.eqb aid main_id then None
      else
        let key :=
          normalize_person_name
            (str_or (au_display_name (author_of a)) "Unknown") in
        if String.eqb key "" then None else Some (key, aid)
  end.

Fixpoint counted_pairs (main_id : string) (l : list Authorship)
  : list (string * string) :=
  match l with
  | [] => []
  | a :: l' =>
      match counted_pair main_id a with
      | Some p => p :: counted_pairs main_id l'
      | None => counted_pairs main_id l'
      end
  end.

(** The identifier tables list, without repetition, exactly the identifiers
    counted under each key among the authorships [seen]. *)
Definition ids_listed (main_id : string) (seen : list Authorship)
  (t : Tables) : Prop :=
  (forall k c, dict_get k (name_ids t) = Some c ->
     NoDup (keys c)
     /\ forall aid, In aid (keys c) <-> In (k, aid) (counted_pairs main_id seen))
  /\ (forall k aid, In (k, aid) (counted_pairs main_id seen) ->
        exists c, dict_get k (name_ids t) = Some c).

(** The authorships of a list of works, in order. *)
Definition all_authorships (ws : list RawWork) : list Authorship :=
  flat_map authorships_of ws.

(** The authorships of the qualifying articles. *)
Definition article_authorships (raw_works : list RawWork) : list Authorship :=
  all_authorships (filter is_published_article raw_works).

(** An authorship with an identifier other than the subject's and no
    display name. *)
Definition nameless_coauthor (main_id : string) (a : Authorship) : bool :=
  match truthy (au_id (author_of a)) with
  | None => false
  | Some aid =>
      negb (String.eqb aid main_id)
      && match truthy (au_display_name (author_of a)) with
         | Some _ => false
         | None => true
         end
  end.


(** [x] may stand before [y] in the co-author ranking, as the code orders
    it: a greater count, or the same count and a name that is not smaller. *)
Definition coauthor_precedes (x y : Coauthor) : Prop :=
  (count y < count x)%nat
  \/ (count x = count y /\ String.leb (name y) (name x) = true).



(** ** Sample inputs *)

Definition sample_work (t : string) (y : option Z) (c : Z) : Work :=
  {| w_id := None; w_title := Some t; w_authors := ""; w_year := y;
     w_citations := c; w_type := Some "article" |}.

(** A source that answers every request with an empty page and a cursor. *)
Definition empty_pages : Source :=
  fun _ _ => {| status_code := 200; text := ""; results := [];
                next_cursor := Some "more" |}.

Definition sample_raw : RawWork :=
  {| raw_id := Some "https://openalex.org/W1"; raw_title := Some "t";
     publication_year := Some 2020; cited_by_count := Some 1;
     work_type := Some "article"; authorships := None |}.

(** A source that never runs out of pages of one record. *)
Definition unlimited_pages : Source :=
  fun _ _ => {| status_code := 200; text := ""; results := [sample_raw];
                next_cursor := Some "more" |}.

Definition coauthor_of (aid disp : string) : Authorship :=
  {| author := Some {| au_id := Some aid; au_display_name := Some disp |} |}.

Definition article_by (l : list Authorship) : RawWork :=
  {| raw_id := None; raw_title := None; publication_year := Some 2021;
     cited_by_count := Some 0; work_type := Some "article";
     authorships := Some l |}.

(** One article of the subject A1 with two co-authors of the same name. *)
Definition shared_article : RawWork :=
  article_by [coauthor_of "https://openalex.org/A1" "Ada Subject";
              coauthor_of "https://openalex.org/A2" "J. Smith";
              coauthor_of "https://openalex.org/A3" "J. Smith"].

Definition two_coauthors : RawWork :=
  article_by [coauthor_of "https://openalex.org/A2" "Alice";
              coauthor_of "https://openalex.org/A3" "Bob"].


Definition nameless_article : RawWork :=
  article_by
    [{| author := Some {| au_id := Some "https://openalex.org/A2";
                          au_display_name := None |} |};
     {| author := Some {| au_id := Some "https://openalex.org/A3";
                          au_display_name := Some "" |} |}].

(** ** Vocabulary of the further properties *)

(** The name key and the display name (after the default "Unknown") under
    which an authorship is counted. *)
Definition counted_disp (main_id : string) (a : Authorship)
  : option (string * string) :=
  match counted_pair main_id a with
  | Some (k, _) => Some (k, str_or (au_display_name (author_of a)) "Unknown")
  | None => None
  end.

Fixpoint counted_disps (main_id : string) (l : list Authorship)
  : list (string * string) :=
  match l with
  | [] => []
  | a :: l' =>
      match counted_disp main_id a with
      | Some p => p :: counted_disps main_id l'
      | None => counted_disps main_id l'
      end
  end.

(** How often the identifier [aid] is counted under the key [k]. *)
Definition occurrences (k aid : string) (pairs : list (string * string))
  : nat :=
  List.length
    (filter (fun p => String.eqb (fst p) k && String.eqb (snd p) aid) pairs).

(** Every count recorded is at least 1. *)
Definition counts_positive (t : Tables) : Prop :=
  forall k c, In (k, c) (name_counts t) -> (1 <= c)%nat.

(** The inner counters hold the number of occurrences of each identifier. *)
Definition ids_counted (main_id : string) (seen : list Authorship)
  (t : Tables) : Prop :=
  forall k c aid,
    dict_get k (name_ids t) = Some c ->
    counter_get aid c = occurrences k aid (counted_pairs main_id seen).

(** The display table holds, for each key, a display name seen under it
    that no other one seen under it exceeds in length. *)
Definition display_longest (main_id : string) (seen : list Authorship)
  (t : Tables) : Prop :=
  (forall k d, dict_get k (name_display t) = Some d ->
     In (k, d) (counted_disps main_id seen)
     /\ forall d', In (k, d') (counted_disps main_id seen) ->
          (String.length d' <= String.length d)%nat)
  /\ (forall k d, In (k, d) (counted_disps main_id seen) ->
        exists d0, dict_get k (name_display t) = Some d0).

(** [x] stands strictly before [y]: a greater count, or the same count and
    a strictly greater name. *)
Definition coauthor_before (x y : Coauthor) : Prop :=
  (count y < count x)%nat
  \/ (count x = count y /\ String.ltb (name y) (name x) = true).

(** The request sent with a given cursor. *)
Definition request_of (author : string) (per_page : Z) (cursor : string)
  : Request :=
  {| req_filter := "authorships.author.id:" ++ author;
     req_per_page := per_page;
     req_cursor := cursor |}.

(** The answer to the [i]-th request of a fetch whose request number [n]
    carries [cursor]: each request carries the cursor of the answer before. *)
Fixpoint page_at (src : Source) (author : string) (per_page : Z)
  (n : nat) (cursor : string) (i : nat) : Response :=
  let r := src n (request_of author per_page cursor) in
  match i with
  | O => r
  | S j =>
      page_at src author per_page (S n) (str_or (next_cursor r) "") j
  end.

(** The identifier a fetch asks for. *)
Definition fetch_author (author_id : string) : string :=
  if startswith "http" author_id then author_id
  else (OPENALEX_ID_PREFIX ++ author_id)%string.

(** [norm_from prev s]: [s] goes on a normalized name whose previous
    character was ([prev = true]) or was not a space: its only white space
    is the single space, never twice in a row, and it does not end on one. *)
Fixpoint norm_from (prev_space : bool) (s : string) : bool :=
  match s with
  | EmptyString => negb prev_space
  | String c s' =>
      if is_space c
      then negb prev_space && Ascii.eqb c " "%char && norm_from true s'
      else norm_from false s'
  end.

(** A source with a single page and no cursor. *)
Definition one_page : Source :=
  fun _ _ => {| status_code := 200; text := ""; results := [sample_raw];
                next_cursor := None |}.



(** ** Concept aggregator *)

(** The float operations [compute_author_concepts] uses.  The properties
    below hold for every interpretation of them, rounded or exact. *)
Class FloatOps (F : Type) := {
  f_zero : F;            (* 0.0 *)
  f_one : F;             (* 1.0 *)
  f_weight : F;          (* 0.0005 *)
  f_add : F -> F -> F;
  f_mul : F -> F -> F;
  f_of_int : Z -> F;     (* float(n) *)
  f_ord :: Ord F
}.

(** Exact arithmetic. *)
#[export] Instance exact_floats : FloatOps Q := {|
  f_zero := 0%Q;
  f_one := 1%Q;
  f_weight := (5 # 10000)%Q;
  f_add := Qplus;
  f_mul := Qmult;
  f_of_int := inject_Z;
  f_ord := ord_Q
|}.

(** A concept of a work: [level] is [Some] for an int level only. *)
Record Concept := {
  concept_name : option string;
  concept_level : option Z
}.

(** A work as the concept query reads it. *)
Record ConceptWork := {
  cw_cited_by_count : option Z;
  cw_concepts : option (list Concept)
}.

Record ConceptRequest := {
  creq_filter : string;
  creq_per_page : Z;
  creq_sort : string
}.

Record ConceptResponse := {
  cres_status : Z;
  cres_results : option (list ConceptWork)
}.

(** [isinstance(level, int) and level <= 1] *)
Definition is_broad (c : Concept) : bool :=
  match concept_level c with
  | Some l => l <=? 1
  | None => false
  end.

Section Concepts.
Context {F : Type} `{FloatOps F}.

(** The body of the loop over the concepts of one work. *)
Definition score_concept (cited : F) (scores : dict F) (c : Concept)
  : dict F :=
  match truthy (concept_name c) with
  | None => scores
  | Some name =>
      if is_broad c then scores
      else
        let old := match dict_get name scores with
                   | Some s => s
                   | None => f_zero
                   end in
        dict_set name (f_add (f_add old f_one) (f_mul f_weight cited)) scores
  end.

Definition score_work (scores : dict F) (w : ConceptWork) : dict F :=
  let cited :=
    f_of_int (match cw_cited_by_count w with Some c => c | None => 0 end) in
  fold_left (score_concept cited)
    (match cw_concepts w with Some l => l | None => [] end) scores.

(** [client] answers the one request of the function. *)
Definition compute_author_concepts (client : ConceptRequest -> ConceptResponse)
  (author_id : string) (top_works top_concepts : Z) : list string :=
  let r := client {| creq_filter := "authorships.author.id:" ++ author_id;
                     creq_per_page := Z.min top_works 200;
                     creq_sort := "cited_by_count:desc" |} in
  if negb (cres_status r =? 200) then []
  else
    let works := match cres_results r with Some l => l | None => [] end in
    let scores := fold_left score_work works [] in
    let best := sort_desc snd scores in
    map fst (slice_to top_concepts best).

End Concepts.


(** The request of [compute_author_concepts]. *)
Definition concept_request (author_id : string) (top_works : Z)
  : ConceptRequest :=
  {| creq_filter := "authorships.author.id:" ++ author_id;
     creq_per_page := Z.min top_works 200;
     creq_sort := "cited_by_count:desc" |}.

(** The name under which a concept scores; [None] when it is passed over. *)
Definition concept_hit (c : Concept) : option string :=
  match truthy (concept_name c) with
  | None => None
  | Some name => if is_broad c then None else Some name
  end.

Definition concepts_of (w : ConceptWork) : list Concept :=
  match cw_concepts w with Some l => l | None => [] end.

Definition works_of (r : ConceptResponse) : list ConceptWork :=
  match cres_results r with Some l => l | None => [] end.

Section ConceptVocabulary.
Context {F : Type} `{FloatOps F}.

(** One more occurrence, on a work cited [cited] times. *)
Definition bump (s cited : F) : F :=
  f_add (f_add s f_one) (f_mul f_weight cited).

Definition cited_of (w : ConceptWork) : F :=
  f_of_int (match cw_cited_by_count w with Some c => c | None => 0 end).

(** The scoring occurrences of a list of concepts, with the citations of
    their work. *)
Fixpoint hits_of (cited : F) (l : list Concept) : list (string * F) :=
  match l with
  | [] => []
  | c :: l' =>
      match concept_hit c with
      | Some n => (n, cited) :: hits_of cited l'
      | None => hits_of cited l'
      end
  end.

Definition all_hits (works : list ConceptWork) : list (string * F) :=
  flat_map (fun w => hits_of (cited_of w) (concepts_of w)) works.

Definition apply_hit (scores : dict F) (h : string * F) : dict F :=
  dict_set (fst h)
    (bump (match dict_get (fst h) scores with
           | Some s => s
           | None => f_zero
           end) (snd h))
    scores.

(** The citations of the occurrences of [n], in order. *)
Definition cites_of (n : string) (hits : list (string * F)) : list F :=
  map snd (filter (fun h => String.eqb (fst h) n) hits).

(** The score [n] has accumulated over its occurrences. *)
Definition accumulated (n : string) (hits : list (string * F)) : F :=
  fold_left bump (cites_of n hits) f_zero.

End ConceptVocabulary.

Definition sample_concept_client : ConceptRequest -> ConceptResponse :=
  fun _ =>
    {| cres_status := 200;
       cres_results :=
         Some [{| cw_cited_by_count := Some 120;
                  cw_concepts :=
                    Some [{| concept_name := Some "Mathematics";
                             concept_level := Some 0 |};
                          {| concept_name := Some "Reaction-diffusion";
                             concept_level := Some 3 |};
                          {| concept_name := Some "Ecology";
                             concept_level := Some 2 |}] |};
               {| cw_cited_by_count := None;
                  cw_concepts :=
                    Some [{| concept_name := Some "Ecology";
                             concept_level := Some 2 |};
                          {| concept_name := None;
                             concept_level := None |}] |}] |}.


(** ** Identifier prefixes and the author search *)

(** [s.replace(old, "")] for a non-empty [old]: the occurrences of [old]
    are dropped from left to right, without overlap.  [skip] counts the
    characters of an occurrence still to drop. *)
Fixpoint remove_from (skip : nat) (old s : string) : string :=
  match s with
  | EmptyString => EmptyString
  | String c s' =>
      match skip with
      | S k => remove_from k old s'
      | O =>
          if String.prefix old s
          then remove_from (String.length old - 1) old s'
          else String c (remove_from O old s')
      end
  end.

Definition str_remove (old s : string) : string :=
  if String.eqb old "" then s else remove_from O old s.

(** [(o or "").replace(prefix, "") if o else None]: the "doi" entry of
    [normalize_work] and the "orcid" entry of [search_openalex_authors]. *)
Definition strip_url_prefix (prefix : string) (o : option string)
  : option string :=
  match truthy o with
  | Some s => Some (str_remove prefix s)
  | None => None
  end.

Definition DOI_PREFIX : string := "https://doi.org/".
Definition ORCID_PREFIX : string := "https://orcid.org/".

(** An author record of the search answer; the institution is the display
    name of [last_known_institution or {}]. *)
Record AuthorRecord := {
  ar_id : option string;
  ar_display_name : option string;
  ar_works_count : option Z;
  ar_cited_by_count : option Z;
  ar_orcid : option string;
  ar_last_known_institution : option string
}.

(** An entry of the search result. *)
Record Candidate := {
  cand_id : option string;
  cand_display_name : option string;
  cand_works_count : option Z;
  cand_cited_by_count : option Z;
  cand_orcid : option string;
  cand_last_known_institution : option string;
  cand_concepts : list string
}.

Definition candidate_of (a : AuthorRecord) : Candidate :=
  {| cand_id := ar_id a;
     cand_display_name := ar_display_name a;
     cand_works_count := ar_works_count a;
     cand_cited_by_count := ar_cited_by_count a;
     cand_orcid := strip_url_prefix ORCID_PREFIX (ar_orcid a);
     cand_last_known_institution := ar_last_known_institution a;
     cand_concepts := [] |}.

Definition with_concepts (item : Candidate) (tags : list string)
  : Candidate :=
  {| cand_id := cand_id item;
     cand_display_name := cand_display_name item;
     cand_works_count := cand_works_count item;
     cand_cited_by_count := cand_cited_by_count item;
     cand_orcid := cand_orcid item;
     cand_last_known_institution := cand_last_known_institution item;
     cand_concepts := tags |}.

(** An element of the list [asyncio.gather(..., return_exceptions=True)]
    returns: the value of the task or the exception it raised. *)
Inductive task_result : Type :=
| Done (tags : list string)
| Failed.

Record SearchRequest := {
  sreq_search : string;
  sreq_per_page : Z
}.

Record SearchResponse := {
  sres_status : Z;
  sres_text : string;
  sres_results : list AuthorRecord
}.

(** The identifiers the tasks are created for, in order. *)
Fixpoint task_ids (out : list Candidate) : list string :=
  match out with
  | [] => []
  | item :: out' =>
      match truthy (cand_id item) with
      | Some i => i :: task_ids out'
      | None => task_ids out'
      end
  end.

(** The last loop of [search_openalex_authors]: the items that have an
    identifier take the results in order; running out of results is the
    [IndexError] of [concepts_list[idx]], here [None]. *)
Fixpoint attach_concepts (out : list Candidate)
  (concepts_list : list task_result) : option (list Candidate) :=
  match out with
  | [] => Some []
  | item :: out' =>
      match truthy (cand_id item) with
      | None => option_map (cons item) (attach_concepts out' concepts_list)
      | Some _ =>
          match concepts_list with
          | [] => None
          | c :: rest =>
              option_map
                (cons (with_concepts item
                         (match c with Done tags => tags | Failed => [] end)))
                (attach_concepts out' rest)
          end
      end
  end.

Section Search.
Context {F : Type} `{FloatOps F}.

(** The task of one candidate; [transport] is [None] when the request
    raises (a timeout, a broken connection). *)
Definition run_task (transport : ConceptRequest -> option ConceptResponse)
  (author_id : string) : task_result :=
  match transport (concept_request author_id 20) with
  | None => Failed
  | Some r => Done (compute_author_concepts (F:=F) (fun _ => r) author_id 20 3)
  end.

(** The tasks of [gather], the [k]-th one with its own transport. *)
Fixpoint run_tasks
  (transport : nat -> ConceptRequest -> option ConceptResponse)
  (k : nat) (ids : list string) : list task_result :=
  match ids with
  | [] => []
  | i :: ids' => run_task (transport k) i :: run_tasks transport (S k) ids'
  end.

Definition search_openalex_authors
  (search : SearchRequest -> SearchResponse)
  (transport : nat -> ConceptRequest -> option ConceptResponse)
  (name : string) (per_page : Z) : outcome (list Candidate) :=
  let r := search {| sreq_search := name; sreq_per_page := per_page |} in
  if negb (sres_status r =? 200)
  then Raised 502 (sres_status r) (substring 0 200 (sres_text r))
  else
    let out := map candidate_of (sres_results r) in
    let concepts_list := run_tasks transport O (task_ids out) in
    match attach_concepts out concepts_list with
    | Some l => Returned l
    | None => Raised 500 0 "IndexError"
    end.

End Search.


(** [old] occurs somewhere in [s]. *)
Fixpoint occurs_inb (old s : string) : bool :=
  String.prefix old s
  || match s with
     | EmptyString => false
     | String _ s' => occurs_inb old s'
     end.

Definition has_id (item : Candidate) : bool :=
  match truthy (cand_id item) with Some _ => true | None => false end.

(** The tags a task leaves to its candidate. *)
Definition tags_of (c : task_result) : list string :=
  match c with Done tags => tags | Failed => [] end.

Definition sample_author (i : option string) (n : string) : AuthorRecord :=
  {| ar_id := i; ar_display_name := Some n; ar_works_count := Some 10;
     ar_cited_by_count := Some 100;
     ar_orcid := Some "https://orcid.org/0000-0002-1825-0097";
     ar_last_known_institution := None |}.

Definition sample_search : SearchRequest -> SearchResponse :=
  fun _ => {| sres_status := 200; sres_text := "";
              sres_results :=
                [sample_author (Some "https://openalex.org/A1") "Ada";
                 sample_author None "Bob";
                 sample_author (Some "https://openalex.org/A3") "Cy"] |}.

(** The first task times out, the others are answered. *)
Definition sample_transport : nat -> ConceptRequest -> option ConceptResponse :=
  fun k rq => match k with
              | O => None
              | _ => Some (sample_concept_client rq)
              end.


(** [y] ties with [x] on every key of the paper ranking. *)
Definition same_rank (x y : Rated) : bool :=
  match cmp (rate_key y) (rate_key x) with Eq => true | _ => false end.

(** * Properties *)

(** ** Laws of the comparisons *)

#[export] Instance laws_Z : OrdLaws Z.
Proof.
  split; simpl.
  - intros a b. apply Z.compare_antisym.
  - intros r a b c. destruct r; rewrite ?Z.compare_eq_iff, ?Z.compare_lt_iff,
      ?Z.compare_gt_iff; lia.
  - intros a b c E. apply Z.compare_eq in E. now subst.
Qed.

#[export] Instance laws_nat : OrdLaws nat.
Proof.
  split; simpl.
  - intros a b. apply Nat.compare_antisym.
  - intros r a b c. destruct r; rewrite ?Nat.compare_eq_iff,
      ?Nat.compare_lt_iff, ?Nat.compare_gt_iff; lia.
  - intros a b c E. apply Nat.compare_eq in E. now subst.
Qed.

#[export] Instance laws_Q : OrdLaws Q.
Proof.
  split; simpl.
  - intros a b. symmetry. apply Qcompare_antisym.
  - intros r a b c. destruct r.
    + rewrite <- !Qeq_alt. apply Qeq_trans.
    + rewrite <- !Qlt_alt. apply Qlt_trans.
    + rewrite <- !Qgt_alt. intros U V. exact (Qlt_trans _ _ _ V U).
  - intros a b c E. apply Qeq_alt in E. now rewrite E.
Qed.

Lemma ascii_compare_trans r (a b c : ascii) :
  Ascii.compare a b = r -> Ascii.compare b c = r -> Ascii.compare a c = r.
Proof.
  unfold Ascii.compare. destruct r;
    rewrite ?N.compare_eq_iff, ?N.compare_lt_iff, ?N.compare_gt_iff; lia.
Qed.

Lemma ascii_compare_eq (a b : ascii) : Ascii.compare a b = Eq -> a = b.
Proof. apply Ascii.compare_eq_iff. Qed.


Lemma str_compare_trans r (a b c : string) :
  String.compare a b = r -> String.compare b c = r -> String.compare a c = r.
Proof.
  revert b c. induction a as [|x a IH]; intros [|y b] [|z c]; simpl;
    try congruence.
  destruct (Ascii.compare x y) eqn:Exy; destruct (Ascii.compare y z) eqn:Eyz;
    try (intros; congruence).
  - rewrite (ascii_compare_trans _ _ _ _ Exy Eyz). apply IH.
  - apply ascii_compare_eq in Exy. subst y. rewrite Eyz. congruence.
  - apply ascii_compare_eq in Exy. subst y. rewrite Eyz. congruence.
  - apply ascii_compare_eq in Eyz. subst z. rewrite Exy. congruence.
  - rewrite (ascii_compare_trans _ _ _ _ Exy Eyz). congruence.
  - apply ascii_compare_eq in Eyz. subst z. rewrite Exy. congruence.
  - rewrite (ascii_compare_trans _ _ _ _ Exy Eyz). congruence.
Qed.

#[export] Instance laws_str : OrdLaws string.
Proof.
  split; simpl.
  - intros a b. apply String.compare_antisym.
  - apply str_compare_trans.
  - intros a b c E. apply String.compare_eq_iff in E. now subst.
Qed.

#[export] Instance laws_pair {A B} `{OrdLaws A} `{OrdLaws B} : OrdLaws (A * B).
Proof.
  split; simpl.
  - intros [a1 a2] [b1 b2]; simpl. rewrite (cmp_antisym a1 b1).
    destruct (cmp a1 b1); simpl; auto. apply cmp_antisym.
  - intros r [a1 a2] [b1 b2] [c1 c2]; simpl.
    destruct (cmp a1 b1) eqn:Eab; destruct (cmp b1 c1) eqn:Ebc;
      try (intros; congruence).
    + rewrite (cmp_trans _ _ _ _ Eab Ebc). apply cmp_trans.
    + rewrite (cmp_eq_l _ _ c1 Eab), Ebc. congruence.
    + rewrite (cmp_eq_l _ _ c1 Eab), Ebc. congruence.
    + assert (E : cmp c1 b1 = Eq) by (rewrite cmp_antisym, Ebc; reflexivity).
      assert (cmp c1 a1 = Gt) as E'.
      { rewrite (cmp_eq_l _ _ a1 E), cmp_antisym, Eab. reflexivity. }
      rewrite (cmp_antisym c1 a1), E'. simpl. congruence.
    + rewrite (cmp_trans _ _ _ _ Eab Ebc). congruence.
    + assert (E : cmp c1 b1 = Eq) by (rewrite cmp_antisym, Ebc; reflexivity).
      assert (cmp c1 a1 = Lt) as E'.
      { rewrite (cmp_eq_l _ _ a1 E), cmp_antisym, Eab. reflexivity. }
      rewrite (cmp_antisym c1 a1), E'. simpl. congruence.
    + rewrite (cmp_trans _ _ _ _ Eab Ebc). congruence.
  - intros [a1 a2] [b1 b2] [c1 c2]; simpl.
    destruct (cmp a1 b1) eqn:Eab; try discriminate. intros E2.
    rewrite (cmp_eq_l _ _ c1 Eab). destruct (cmp b1 c1); auto.
    now apply cmp_eq_l.
Qed.

(** ** The descending stable sort *)

Section SortFacts.
Context {A K : Type} `{OrdLaws K} (key : A -> K).

Lemma lt_b_false (a b : K) : lt_b a b = false <-> cmp a b <> Lt.
Proof. unfold lt_b. destruct (cmp a b); split; congruence. Qed.

Lemma lt_b_true (a b : K) : lt_b a b = true <-> cmp a b = Lt.
Proof. unfold lt_b. destruct (cmp a b); split; congruence. Qed.

Lemma cmp_refl (a : K) : cmp a a = Eq.
Proof.
  pose proof (cmp_antisym a a) as E. destruct (cmp a a); simpl in E;
    congruence.
Qed.

Lemma ge_key_trans (x y z : A) : ge_key key x y -> ge_key key y z -> ge_key key x z.
Proof.
  unfold ge_key. intros Hxy Hyz Hxz.
  destruct (cmp (key x) (key y)) eqn:Exy; [| congruence |].
  - rewrite (cmp_eq_l _ _ (key z) Exy) in Hxz. congruence.
  - destruct (cmp (key y) (key z)) eqn:Eyz; [| congruence |].
    + assert (E : cmp (key z) (key y) = Eq).
      { rewrite cmp_antisym, Eyz. reflexivity. }
      assert (E' : cmp (key z) (key x) = Lt).
      { rewrite (cmp_eq_l _ _ (key x) E), cmp_antisym, Exy. reflexivity. }
      rewrite cmp_antisym, E' in Hxz. discriminate.
    + rewrite (cmp_trans _ _ _ _ Exy Eyz) in Hxz. discriminate.
Qed.

Lemma insert_desc_perm (x : A) (l : list A) :
  Permutation (insert_desc key x l) (x :: l).
Proof.
  induction l as [|y l IH]; simpl; [reflexivity|].
  destruct (lt_b (key x) (key y)); [|reflexivity].
  rewrite IH. apply perm_swap.
Qed.

Lemma sort_desc_perm (l : list A) : Permutation (sort_desc key l) l.
Proof.
  induction l as [|x l IH]; simpl; [reflexivity|].
  rewrite insert_desc_perm. now constructor.
Qed.

Lemma sort_desc_length (l : list A) :
  List.length (sort_desc key l) = List.length l.
Proof. apply Permutation_length, sort_desc_perm. Qed.

Lemma sort_desc_In (x : A) (l : list A) : In x (sort_desc key l) <-> In x l.
Proof.
  split; apply Permutation_in; [|symmetry]; apply sort_desc_perm.
Qed.

Lemma insert_desc_sorted (x : A) (l : list A) :
  StronglySorted (ge_key key) l -> StronglySorted (ge_key key) (insert_desc key x l).
Proof.
  induction l as [|y l IH]; intros Hs; simpl.
  - repeat constructor.
  - inversion Hs as [|? ? Hl Hy]; subst.
    destruct (lt_b (key x) (key y)) eqn:E.
    + constructor; [now apply IH|].
      eapply Permutation_Forall; [symmetry; apply insert_desc_perm|].
      constructor; [|assumption].
      apply lt_b_true in E. unfold ge_key.
      rewrite cmp_antisym, E. discriminate.
    + apply lt_b_false in E. constructor; [assumption|].
      constructor; [exact E|].
      eapply Forall_impl; [|exact Hy].
      intros z Hz. eapply ge_key_trans; eassumption.
Qed.

Lemma sort_desc_sorted (l : list A) : StronglySorted (ge_key key) (sort_desc key l).
Proof.
  induction l as [|x l IH]; simpl; [constructor|].
  now apply insert_desc_sorted.
Qed.

(** Stability: the elements whose key equals [k] keep their order. *)
Lemma insert_desc_stable (k : K) (x : A) (l : list A) :
  filter (fun y => match cmp (key y) k with Eq => true | _ => false end)
         (insert_desc key x l)
  = filter (fun y => match cmp (key y) k with Eq => true | _ => false end)
           (x :: l).
Proof.
  induction l as [|y l IH]; [reflexivity|].
  cbn [insert_desc]. destruct (lt_b (key x) (key y)) eqn:E; [|reflexivity].
  apply lt_b_true in E. cbn [filter] in *. rewrite IH.
  destruct (cmp (key x) k) eqn:Ex; [|reflexivity|reflexivity].
  assert (Ey : cmp (key y) k <> Eq).
  { intros Ey. assert (E2 : cmp k (key y) = Eq).
    { rewrite cmp_antisym, Ey. reflexivity. }
    rewrite (cmp_trans _ _ _ _ Ex E2) in E. discriminate. }
  destruct (cmp (key y) k); congruence.
Qed.

Lemma sort_desc_stable (k : K) (l : list A) :
  filter (fun y => match cmp (key y) k with Eq => true | _ => false end)
         (sort_desc key l)
  = filter (fun y => match cmp (key y) k with Eq => true | _ => false end) l.
Proof.
  induction l as [|x l IH]; [reflexivity|].
  cbn [sort_desc fold_right]. rewrite insert_desc_stable.
  cbn [filter]. fold (sort_desc key l). now rewrite IH.
Qed.

End SortFacts.

(** ** Slices *)

Lemma slice_to_prefix {A} (n : Z) (l : list A) :
  exists rest, l = (slice_to n l ++ rest)%list.
Proof.
  unfold slice_to. destruct (0 <=? n);
    eexists; symmetry; apply firstn_skipn.
Qed.

Lemma slice_to_length {A} (n : Z) (l : list A) :
  0 <= n ->
  Z.of_nat (List.length (slice_to n l)) = Z.min n (Z.of_nat (List.length l)).
Proof.
  intros Hn. unfold slice_to. destruct (Z.leb_spec 0 n); [|lia].
  rewrite length_firstn. lia.
Qed.

Lemma slice_to_In {A} (n : Z) (l : list A) (x : A) :
  In x (slice_to n l) -> In x l.
Proof.
  destruct (slice_to_prefix n l) as [rest E]. intros Hx.
  rewrite E. apply in_or_app. now left.
Qed.

Lemma StronglySorted_app_l {A} (R : A -> A -> Prop) (l1 l2 : list A) :
  StronglySorted R (l1 ++ l2) -> StronglySorted R l1.
Proof.
  induction l1 as [|x l1 IH]; simpl; intros Hs; [constructor|].
  inversion Hs as [|? ? Hl Hx]; subst. constructor; [now apply IH|].
  apply Forall_app in Hx. tauto.
Qed.

Lemma slice_to_sorted {A} (R : A -> A -> Prop) (n : Z) (l : list A) :
  StronglySorted R l -> StronglySorted R (slice_to n l).
Proof.
  destruct (slice_to_prefix n l) as [rest E]. intros Hs.
  rewrite E in Hs. eapply StronglySorted_app_l; eassumption.
Qed.

(** In a strongly sorted list the relation holds between any two positions
    in order. *)
Lemma StronglySorted_nth {A} (R : A -> A -> Prop) (l : list A) :
  StronglySorted R l ->
  forall i j x y, (i < j)%nat ->
    nth_error l i = Some x -> nth_error l j = Some y -> R x y.
Proof.
  induction 1 as [|a l Hs IH Ha]; intros i j x y Hij Hi Hj.
  - destruct i; discriminate.
  - destruct j as [|j]; [lia|]. simpl in Hj. destruct i as [|i].
    + simpl in Hi. injection Hi as <-.
      rewrite Forall_forall in Ha. apply Ha. eapply nth_error_In; eassumption.
    + simpl in Hi. eapply IH; [|eassumption|eassumption]. lia.
Qed.

(** ** Citation rate *)

Lemma truediv_some (a b : Z) :
  b <> 0 -> truediv a b = Some (inject_Z a / inject_Z b)%Q.
Proof.
  intros Hb. unfold truediv. destruct (Z.eqb_spec b 0); congruence.
Qed.

Lemma citation_rate_some (c y n : Z) :
  citation_rate c y n
  = Some (inject_Z c / inject_Z (1 + Z.max 0 (n - y)))%Q.
Proof. unfold citation_rate. apply truediv_some. lia. Qed.

Lemma Qdiv_nonneg (a b : Z) :
  0 <= a -> 1 <= b -> (0 <= inject_Z a / inject_Z b)%Q.
Proof.
  intros Ha Hb. unfold Qdiv. apply Qmult_le_0_compat.
  - change 0%Q with (inject_Z 0). rewrite <- Zle_Qle. exact Ha.
  - apply Qinv_le_0_compat. change 0%Q with (inject_Z 0).
    rewrite <- Zle_Qle. lia.
Qed.

(** C3: the rate is the quotient of the citations by one plus the age, the
    age being floored at zero; the divisor is at least 1, so the division
    never raises; a work dated in the future is divided by 1; the rate of a
    non-negative citation count is non-negative. *)
Theorem citation_rate_formula (c y n : Z) (Hc : 0 <= c) :
  citation_rate c y n
    = Some (inject_Z c / inject_Z (1 + Z.max 0 (n - y)))%Q
  /\ 1 <= 1 + Z.max 0 (n - y)
  /\ citation_rate c y n <> None
  /\ (n < y -> citation_rate c y n = Some (inject_Z c / inject_Z 1)%Q)
  /\ (forall q, citation_rate c y n = Some q -> (0 <= q)%Q).
Proof.
  rewrite citation_rate_some. repeat split.
  - lia.
  - discriminate.
  - intros Hny. replace (Z.max 0 (n - y)) with 0 by lia. reflexivity.
  - pose proof (Qdiv_nonneg c (1 + Z.max 0 (n - y)) Hc ltac:(lia)) as Hq.
    intros q [= <-]. exact Hq.
Qed.

Lemma citation_rate_formula_witness :
  0 <= 100 /\
  citation_rate 100 2020 2025 = Some (inject_Z 100 / inject_Z 6)%Q.
Proof.
  split; [lia|].
  exact (proj1 (citation_rate_formula 100 2020 2025 ltac:(lia))).
Defined.

(** ** Paper ranking *)

Lemma rate_works_total (now : Z) (works : list Work) :
  exists rated,
    rate_works now works = Some rated
    /\ map r_work rated = filter work_has_year works
    /\ Forall (fun x => exists y,
                 w_year (r_work x) = Some y
                 /\ citation_rate (citations_of x) y now
                    = Some (citation_rate_of x)) rated.
Proof.
  induction works as [|w ws (rated & E & Hm & Hf)]; simpl.
  - exists []. repeat split; constructor.
  - unfold work_has_year at 1. destruct (w_year w) as [y|] eqn:Ey.
    + rewrite citation_rate_some, E. eexists. split; [reflexivity|].
      split; [simpl; now rewrite Hm|].
      constructor; [|assumption]. exists y. simpl. split; [assumption|].
      unfold citations_of. simpl. apply citation_rate_some.
    + exists rated. auto.
Qed.

Lemma ge_key_rate_precedes (x y : Rated) :
  ge_key rate_key x y -> rate_precedes x y.
Proof.
  unfold ge_key, rate_key, rate_precedes. simpl.
  fold (citations_of x) (citations_of y) (year_of x) (year_of y)
       (title_of x) (title_of y).
  destruct (Qcompare_spec (citation_rate_of x) (citation_rate_of y))
    as [Eq1|Lt1|Gt1]; [|congruence|now left].
  right. split; [assumption|].
  destruct (Z.compare_spec (citations_of x) (citations_of y))
    as [Eq2|Lt2|Gt2]; [|congruence|left; lia].
  right. split; [assumption|].
  destruct (Z.compare_spec (year_of x) (year_of y))
    as [Eq3|Lt3|Gt3]; [|congruence|left; lia].
  right. split; [assumption|].
  unfold String.leb. rewrite String.compare_antisym.
  destruct (String.compare (title_of x) (title_of y)); simpl; congruence.
Qed.



(** C8, as stated, fails: a negative [top_n] drops entries from the end
    of the list instead of bounding its length, and a negative citation
    count gives a negative rate. *)
Lemma rate_ranking_bounds_counterexample :
  ~ rate_ranking_bounds 2025
      [sample_work "a" (Some 2020) 100; sample_work "b" (Some 2024) 10] (-1)
  /\ ~ rate_ranking_bounds 2025 [sample_work "a" (Some 2020) (-6)] 30.
Proof.
  split; intros H.
  - destruct (H _ eq_refl) as [Hlen _]. vm_compute in Hlen.
    now apply Hlen.
  - destruct (H _ eq_refl) as [_ Hpos]. inversion Hpos as [|? ? Hq _]; subst.
    vm_compute in Hq. now apply Hq.
Qed.

Lemma Forall_slice_to {A} (P : A -> Prop) (n : Z) (l : list A) :
  Forall P l -> Forall P (slice_to n l).
Proof.
  rewrite !Forall_forall. intros H x Hx. apply H.
  eapply slice_to_In; eassumption.
Qed.

(** C8, amended: for a non-negative [top_n] and any list of works the
    paper ranking has at most [min(top_n, number of works with a year)]
    entries, and when no citation count is negative every returned rate is
    non-negative; the route drops the works without a year from the paper
    ranking and still counts them in the total. *)
Theorem compute_rate_ranking_bounds (now : Z) (works : list Work) (top_n : Z)
  (Htop : 0 <= top_n) :
  (exists out,
     compute_rate_ranking now works top_n = Some out
     /\ Z.of_nat (List.length out)
        <= Z.min top_n (Z.of_nat (List.length (filter work_has_year works)))
     /\ (Forall (fun w => 0 <= w_citations w) works ->
         Forall (fun x => (0 <= citation_rate_of x)%Q) out))
  /\ (forall raw author_id,
        exists r,
          ranking now raw author_id = Some r
          /\ count_works_total r = List.length raw
          /\ count_works_with_year r = List.length (filter has_year raw)
          /\ (forall x, In x (paper_ranking r) ->
                exists w, In w raw /\ publication_year w <> None
                          /\ r_work x = normalize_work w)).
Proof.
  split.
  - destruct (rate_works_total now works) as (rated & E & Hm & Hf).
    unfold compute_rate_ranking. rewrite E. eexists. split; [reflexivity|].
    split.
    + rewrite slice_to_length by assumption.
      rewrite sort_desc_length, <- Hm, length_map. lia.
    + intros Hcit. apply Forall_slice_to.
      eapply Permutation_Forall; [symmetry; apply sort_desc_perm|].
      rewrite Forall_forall in *. intros x Hx.
      destruct (Hf x Hx) as (y & Hy & Hr).
      assert (Hin : In (r_work x) works).
      { assert (Hin' : In (r_work x) (map r_work rated)) by now apply in_map.
        rewrite Hm in Hin'. apply filter_In in Hin'. tauto. }
      pose proof (Hcit _ Hin) as Hc. fold (citations_of x) in Hc.
      rewrite citation_rate_some in Hr.
      pose proof (Qdiv_nonneg (citations_of x) (1 + Z.max 0 (now - y))
                    Hc ltac:(lia)) as Hq.
      injection Hr as Hr. rewrite <- Hr. exact Hq.
  - intros raw author_id. unfold ranking.
    set (works' := map normalize_work (filter has_year raw)).
    destruct (rate_works_total now works') as (rated & E & Hm & _).
    unfold compute_rate_ranking. rewrite E. eexists. split; [reflexivity|].
    simpl. split; [reflexivity|]. split; [apply length_map|].
    intros x Hx. apply slice_to_In, sort_desc_In in Hx.
    assert (Hin : In (r_work x) (map r_work rated)) by now apply in_map.
    rewrite Hm in Hin. apply filter_In in Hin. destruct Hin as [Hin _].
    apply in_map_iff in Hin. destruct Hin as (w & Ew & Hw).
    apply filter_In in Hw. destruct Hw as [Hw Hy].
    exists w. split; [assumption|]. split; [|now symmetry].
    unfold has_year in Hy. destruct (publication_year w); congruence.
Qed.

Lemma compute_rate_ranking_bounds_witness :
  exists out,
    compute_rate_ranking 2025
      [sample_work "a" (Some 2020) 100; sample_work "b" (Some 2024) (-10);
       sample_work "c" None 3] 30 = Some out
    /\ Z.of_nat (List.length out) <= Z.min 30 2.
Proof.
  destruct (proj1 (compute_rate_ranking_bounds 2025
      [sample_work "a" (Some 2020) 100; sample_work "b" (Some 2024) (-10);
       sample_work "c" None 3] 30 ltac:(lia))) as (out & E & Hlen & _).
  exists out. split; [exact E | exact Hlen].
Defined.

(** ** Paginated fetcher *)

Lemma empty_pages_loop (fuel : nat) :
  forall author per_page n cursor,
    fetch_loop fuel empty_pages author per_page n cursor [] = OutOfFuel.
Proof.
  induction fuel as [|fuel IH]; intros author per_page n cursor;
    [reflexivity|].
  cbn. apply IH.
Qed.

(** C7, as stated, fails: on a source whose pages are all empty and all
    carry a cursor the record count never passes the cap and the loop never
    ends. *)
Lemma fetch_terminates_counterexample :
  ~ fetch_terminates empty_pages "A5023888391" 200.
Proof.
  intros [fuel H]. apply H. unfold fetch_openalex_works.
  apply empty_pages_loop.
Qed.

Section Fetch.
Variables (src : Source) (author : string) (per_page : Z).

Lemma fetch_loop_enough (fuel : nat) :
  (forall n rq, truthy (next_cursor (src n rq)) <> None ->
                results (src n rq) <> []) ->
  forall n cursor works,
    Z.of_nat (List.length works) <= FETCH_CAP ->
    FETCH_CAP + 1 <= Z.of_nat fuel + Z.of_nat (List.length works) ->
    fetch_loop fuel src author per_page n cursor works <> OutOfFuel.
Proof.
  unfold FETCH_CAP. intros Hne.
  induction fuel as [|fuel IH]; intros n cursor works Hcap Hfuel; [lia|].
  cbn [fetch_loop].
  set (r := src n _). destruct (status_code r =? 200); [|discriminate].
  cbn [negb]. destruct (truthy (next_cursor r)) eqn:Ecur; [|discriminate].
  destruct (Z.ltb_spec 15000 (Z.of_nat (List.length (works ++ results r))))
    as [|Hlen]; [discriminate|].
  apply IH; [assumption|]. rewrite length_app in *.
  assert (Hpage : List.length (results r) <> O).
  { assert (Hr : results r <> []) by (apply Hne; fold r; congruence).
    destruct (results r); simpl; congruence. }
  lia.
Qed.

Lemma fetch_loop_mono (fuel : nat) :
  forall fuel' n cursor works,
    (fuel <= fuel')%nat ->
    fetch_loop fuel src author per_page n cursor works <> OutOfFuel ->
    fetch_loop fuel' src author per_page n cursor works
    = fetch_loop fuel src author per_page n cursor works.
Proof.
  induction fuel as [|fuel IH]; intros fuel' n cursor works Hle Hout;
    [now contradiction Hout|].
  destruct fuel' as [|fuel']; [lia|]. cbn [fetch_loop] in *.
  set (r := src n _) in *. destruct (negb (status_code r =? 200));
    [reflexivity|].
  destruct (truthy (next_cursor r)); [|reflexivity].
  destruct (15000 <? _); [reflexivity|]. apply IH; [lia|assumption].
Qed.

Lemma fetch_loop_no_raise (fuel : nat) :
  (forall n rq, status_code (src n rq) = 200) ->
  forall n cursor works st up detail,
    fetch_loop fuel src author per_page n cursor works
    <> Raised st up detail.
Proof.
  intros Hok. induction fuel as [|fuel IH]; intros n cursor works st up d;
    [discriminate|].
  cbn [fetch_loop]. rewrite Hok. cbn.
  destruct (truthy _); [|discriminate].
  destruct (15000 <? _); [discriminate|]. apply IH.
Qed.

(** What is returned is at most [FETCH_CAP] records followed by one page. *)
Lemma fetch_loop_returned (fuel : nat) :
  forall n cursor works out,
    Z.of_nat (List.length works) <= FETCH_CAP ->
    fetch_loop fuel src author per_page n cursor works = Returned out ->
    exists before page,
      out = (before ++ page)%list
      /\ Z.of_nat (List.length before) <= FETCH_CAP.
Proof.
  induction fuel as [|fuel IH]; intros n cursor works out Hcap;
    [discriminate|].
  cbn [fetch_loop]. set (r := src n _).
  destruct (negb (status_code r =? 200)); [discriminate|].
  destruct (truthy (next_cursor r)).
  - destruct (Z.ltb_spec 15000 (Z.of_nat (List.length (works ++ results r)))).
    + intros [= <-]. now exists works, (results r).
    + apply IH. exact H.
  - intros [= <-]. now exists works, (results r).
Qed.

(** While the source keeps giving a cursor, only the cap ends the loop. *)
Lemma fetch_loop_capped (fuel : nat) :
  (forall n rq, truthy (next_cursor (src n rq)) <> None) ->
  forall n cursor works out,
    fetch_loop fuel src author per_page n cursor works = Returned out ->
    FETCH_CAP < Z.of_nat (List.length out).
Proof.
  intros Hcur. induction fuel as [|fuel IH]; intros n cursor works out;
    [discriminate|].
  cbn [fetch_loop]. set (r := src n _).
  destruct (negb (status_code r =? 200)); [discriminate|].
  destruct (truthy (next_cursor r)) eqn:E.
  - destruct (Z.ltb_spec 15000 (Z.of_nat (List.length (works ++ results r)))).
    + intros [= <-]. exact H.
    + apply IH.
  - exfalso. eapply Hcur. exact E.
Qed.

End Fetch.

(** C7, amended: on a source whose pages that carry a cursor are never
    empty the fetch ends within 15,001 requests, with the same outcome for
    any larger budget;
    what it returns is at most 15,000 records followed by a single page;
    when every answer has status 200 it returns a list and raises nothing,
    and when in addition every answer carries a cursor the returned list
    holds more than 15,000 records. *)
Theorem fetch_stops_at_cap (src : Source) (author_id : string) (per_page : Z)
  (Hne : forall n rq, truthy (next_cursor (src n rq)) <> None ->
                      results (src n rq) <> []) :
  exists fuel,
    Z.of_nat fuel = 15001
    /\ fetch_openalex_works fuel src author_id per_page <> OutOfFuel
    /\ (forall fuel', (fuel <= fuel')%nat ->
          fetch_openalex_works fuel' src author_id per_page
          = fetch_openalex_works fuel src author_id per_page)
    /\ (forall out,
          fetch_openalex_works fuel src author_id per_page = Returned out ->
          exists before page,
            out = (before ++ page)%list
            /\ Z.of_nat (List.length before) <= 15000)
    /\ ((forall n rq, status_code (src n rq) = 200) ->
        exists out,
          fetch_openalex_works fuel src author_id per_page = Returned out
          /\ ((forall n rq, truthy (next_cursor (src n rq)) <> None) ->
              15000 < Z.of_nat (List.length out))).
Proof.
  exists (Z.to_nat 15001). split; [lia|].
  unfold fetch_openalex_works.
  set (author := if startswith "http" author_id then author_id else _).
  assert (Hend : fetch_loop (Z.to_nat 15001) src author per_page 0 "*" []
                 <> OutOfFuel).
  { apply fetch_loop_enough; [assumption| |]; unfold FETCH_CAP;
      cbn [List.length]; lia. }
  split; [exact Hend|]. split; [|split].
  - intros fuel' Hle. now apply fetch_loop_mono.
  - intros out Hout.
    eapply (fetch_loop_returned src author per_page); [|exact Hout].
    unfold FETCH_CAP. cbn [List.length]. lia.
  - intros Hok.
    destruct (fetch_loop (Z.to_nat 15001) src author per_page 0 "*" [])
      as [out|st up d|] eqn:E.
    + exists out. split; [reflexivity|]. intros Hcur.
      eapply (fetch_loop_capped src author per_page); eassumption.
    + exfalso. eapply fetch_loop_no_raise; eassumption.
    + now contradiction Hend.
Qed.

Lemma fetch_stops_at_cap_witness :
  exists fuel,
    Z.of_nat fuel = 15001
    /\ fetch_openalex_works fuel unlimited_pages "A5023888391" 200
       <> OutOfFuel.
Proof.
  destruct (fetch_stops_at_cap unlimited_pages "A5023888391" 200
              ltac:(intros n rq _; discriminate)) as (fuel & Hf & Hend & _).
  exists fuel. split; [exact Hf | exact Hend].
Defined.

(** ** Author-list compaction *)

Lemma str_app_assoc (a b c : string) : ((a ++ b) ++ c = a ++ (b ++ c))%string.
Proof. induction a as [|x a IH]; simpl; [reflexivity|now rewrite IH]. Qed.

Lemma join_snoc (sep : string) (l : list string) (x : string) :
  l <> [] -> join sep (l ++ [x]) = (join sep l ++ sep ++ x)%string.
Proof.
  induction l as [|a l IH]; [congruence|]. intros _.
  destruct l as [|b l]; [reflexivity|].
  change (join sep ((a :: b :: l) ++ [x]))
    with (a ++ sep ++ join sep ((b :: l) ++ [x]))%string.
  rewrite IH by discriminate.
  change (join sep (a :: b :: l)) with (a ++ sep ++ join sep (b :: l))%string.
  now rewrite !str_app_assoc.
Qed.

Lemma truthy_some (o : option string) (s : string) :
  truthy o = Some s <-> o = Some s /\ s <> "".
Proof.
  unfold truthy. destruct o as [t|]; [|split; [discriminate|intros [? _]; discriminate]].
  destruct (String.eqb_spec t ""); split.
  - discriminate.
  - intros [[= ->] Hs]. contradiction.
  - intros [= ->]. auto.
  - intros [[= ->] _]. reflexivity.
Qed.

(** The names are the display names that are present and not empty, in the
    order of the authorships. *)
Lemma author_names_order (l : list Authorship) :
  map Some (author_names l)
  = filter (fun o => match truthy o with Some _ => true | None => false end)
           (map (fun a => au_display_name (author_of a)) l).
Proof.
  induction l as [|a l IH]; [reflexivity|]. simpl.
  destruct (truthy (au_display_name (author_of a))) as [n|] eqn:E;
    [|exact IH].
  apply truthy_some in E. destruct E as [E _]. simpl. now rewrite IH, E.
Qed.

(** C9: the compacted author string joins, in the order of the authorships,
    the display names that are present; with more than 12 of them it is the
    first 12, exactly, followed by the marker "et al." as one more element of
    the join; with none of them it is the empty string. *)
Theorem extract_authors_list_compact (raw_work : RawWork) :
  let names := author_names (authorships_of raw_work) in
  let out := extract_authors_list raw_work MAX_AUTHORS_DISPLAY in
  map Some names
  = filter (fun o => match truthy o with Some _ => true | None => false end)
      (map (fun a => au_display_name (author_of a))
           (authorships_of raw_work))
  /\ (names = [] -> out = "")
  /\ ((List.length names <= 12)%nat -> out = join ", " names)
  /\ ((12 < List.length names)%nat ->
      out = (join ", " (firstn 12 names) ++ ", et al.")%string
      /\ out = join ", " (firstn 12 names ++ ["et al."])
      /\ List.length (firstn 12 names) = 12%nat).
Proof.
  intros names out. split; [apply author_names_order|].
  subst out. unfold extract_authors_list. fold names.
  unfold MAX_AUTHORS_DISPLAY.
  change (slice_to 12 names) with (firstn 12 names).
  repeat split.
  - intros ->. reflexivity.
  - intros Hle. destruct names as [|n names'] eqn:E; [reflexivity|].
    rewrite <- E in *.
    destruct (Z.leb_spec (Z.of_nat (List.length names)) 12); [reflexivity|lia].
  - destruct names as [|n names'] eqn:E; [simpl in H; lia|]. rewrite <- E in *.
    destruct (Z.leb_spec (Z.of_nat (List.length names)) 12); [lia|reflexivity].
  - destruct names as [|n names'] eqn:E; [simpl in H; lia|]. rewrite <- E in *.
    destruct (Z.leb_spec (Z.of_nat (List.length names)) 12); [lia|].
    rewrite join_snoc; [reflexivity|].
    rewrite E. discriminate.
  - rewrite length_firstn. lia.
Qed.

(** ** Dictionaries *)

Section DictFacts.
Context {V : Type}.
Implicit Types (d : dict V) (k : string) (v : V).

Lemma dict_get_set_eq k v d : dict_get k (dict_set k v d) = Some v.
Proof.
  induction d as [|[k' v'] d IH]; simpl.
  - now rewrite String.eqb_refl.
  - destruct (String.eqb k k') eqn:E; simpl.
    + now rewrite String.eqb_refl.
    + now rewrite E.
Qed.

Lemma dict_get_set_neq k k' v d :
  k <> k' -> dict_get k' (dict_set k v d) = dict_get k' d.
Proof.
  intros Hn. induction d as [|[k0 v0] d IH]; simpl.
  - apply String.eqb_neq in Hn. now rewrite String.eqb_sym, Hn.
  - destruct (String.eqb_spec k k0) as [->|Hk]; simpl.
    + apply String.eqb_neq in Hn. now rewrite String.eqb_sym, Hn.
    + now rewrite IH.
Qed.

Lemma dict_get_In k v d : dict_get k d = Some v -> In (k, v) d.
Proof.
  induction d as [|[k' v'] d IH]; simpl; [discriminate|].
  destruct (String.eqb_spec k k') as [->|Hk].
  - intros [= ->]. now left.
  - intros H. right. now apply IH.
Qed.

Lemma dict_get_None k d : dict_get k d = None -> ~ In k (keys d).
Proof.
  induction d as [|[k' v'] d IH]; simpl; [tauto|].
  destruct (String.eqb_spec k k') as [->|Hk]; [discriminate|].
  intros H [E|Hin]; [congruence|]. now apply IH.
Qed.

Lemma In_dict_get k v d : NoDup (keys d) -> In (k, v) d -> dict_get k d = Some v.
Proof.
  induction d as [|[k' v'] d IH]; simpl; [tauto|].
  intros Hnd. inversion Hnd as [|? ? Hk' Hd]; subst.
  intros [[= -> ->]|Hin].
  - now rewrite String.eqb_refl.
  - destruct (String.eqb_spec k k') as [->|Hk].
    + exfalso. apply Hk'. change k' with (fst (k', v)). now apply in_map.
    + now apply IH.
Qed.

Lemma In_dict_set k v k' v' d :
  In (k', v') (dict_set k v d) -> (k', v') = (k, v) \/ In (k', v') d.
Proof.
  induction d as [|[k0 v0] d IH]; simpl.
  - intros [E|[]]. now left.
  - destruct (String.eqb k k0); simpl.
    + intros [E|Hin]; [now left|right; now right].
    + intros [E|Hin]; [right; now left|].
      destruct (IH Hin); [now left|right; now right].
Qed.

Lemma keys_dict_set k v d :
  keys (dict_set k v d)
  = if dict_mem k d then keys d else (keys d ++ [k])%list.
Proof.
  unfold dict_mem. induction d as [|[k0 v0] d IH]; simpl; [reflexivity|].
  destruct (String.eqb_spec k k0) as [->|Hk]; simpl; [reflexivity|].
  rewrite IH. now destruct (dict_get k d).
Qed.

Lemma NoDup_keys_dict_set k v d :
  NoDup (keys d) -> NoDup (keys (dict_set k v d)).
Proof.
  intros Hnd. rewrite keys_dict_set. unfold dict_mem.
  destruct (dict_get k d) eqn:E; [assumption|].
  apply dict_get_None in E.
  apply (Permutation_NoDup (l := k :: keys d)).
  - apply Permutation_cons_append.
  - now constructor.
Qed.

End DictFacts.

Lemma counter_get_incr (k k' : string) (c : counter) :
  counter_get k (counter_incr k' c)
  = if String.eqb k' k then S (counter_get k c) else counter_get k c.
Proof.
  unfold counter_incr, counter_get at 1.
  destruct (String.eqb_spec k' k) as [->|Hk].
  - now rewrite dict_get_set_eq.
  - now rewrite dict_get_set_neq.
Qed.

Lemma first_max_In (best : string * nat) (l : list (string * nat)) :
  In (first_max best l) (best :: l).
Proof.
  revert best. induction l as [|e l IH]; intros best; simpl; [now left|].
  destruct (IH (if (snd best <? snd e)%nat then e else best)) as [E|Hin].
  - rewrite <- E. destruct (snd best <? snd e)%nat; auto.
  - auto.
Qed.


(** ** The scan of the authorships *)

Section Scan.
Variable main_id : string.

Lemma scan_authorship_counts (t : Tables) (a : Authorship) :
  name_counts (scan_authorship main_id t a)
  = match counted_key main_id a with
    | Some k => counter_incr k (name_counts t)
    | None => name_counts t
    end.
Proof.
  unfold scan_authorship, counted_key.
  destruct (truthy (au_id (author_of a))) as [aid|]; [|reflexivity].
  destruct (String.eqb aid main_id); [reflexivity|]. cbv zeta.
  now destruct (String.eqb _ "").
Qed.

Lemma scan_works_flat (ws : list RawWork) (t : Tables) :
  fold_left (scan_work main_id) ws t
  = fold_left (scan_authorship main_id) (all_authorships ws) t.
Proof.
  revert t. induction ws as [|w ws IH]; intros t; [reflexivity|].
  unfold all_authorships in *. simpl. rewrite fold_left_app. apply IH.
Qed.

Lemma scan_counts (l : list Authorship) :
  forall (t : Tables) (k : string),
    counter_get k (name_counts (fold_left (scan_authorship main_id) l t))
    = (counter_get k (name_counts t)
       + List.length (filter (counted_as main_id k) l))%nat.
Proof.
  induction l as [|a l IH]; intros t k; simpl; [lia|].
  rewrite IH, scan_authorship_counts. unfold counted_as at 2.
  destruct (counted_key main_id a) as [k'|]; [|lia].
  rewrite counter_get_incr. destruct (String.eqb k' k); simpl; lia.
Qed.

Lemma scan_counts_NoDup (l : list Authorship) :
  forall t : Tables,
    NoDup (keys (name_counts t)) ->
    NoDup (keys (name_counts (fold_left (scan_authorship main_id) l t))).
Proof.
  induction l as [|a l IH]; intros t Hnd; simpl; [assumption|].
  apply IH. rewrite scan_authorship_counts.
  destruct (counted_key main_id a); [|assumption].
  now apply NoDup_keys_dict_set.
Qed.



Lemma scan_works_counts (ws : list RawWork) (k : string) :
  counter_get k (name_counts (scan_works main_id ws))
  = List.length (filter (counted_as main_id k) (all_authorships ws)).
Proof. unfold scan_works. now rewrite scan_works_flat, scan_counts. Qed.

Lemma scan_works_NoDup (ws : list RawWork) :
  NoDup (keys (name_counts (scan_works main_id ws))).
Proof.
  unfold scan_works. rewrite scan_works_flat. apply scan_counts_NoDup.
  constructor.
Qed.


End Scan.

(** ** Entries of the co-author ranking *)

Lemma coauthor_items_In (raw_works : list RawWork) (main_author_id : string)
  (x : Coauthor) :
  let t := scan_works (_canonical_author_id main_author_id)
             (filter is_published_article raw_works) in
  In x (coauthor_items raw_works main_author_id)
  <-> exists c, In (name_key x, c) (name_counts t)
                /\ x = make_item t (name_key x, c).
Proof.
  intros t. unfold coauthor_items. fold t. rewrite sort_desc_In, in_map_iff.
  split.
  - intros ([k c] & <- & Hin). exists c. simpl. auto.
  - intros (c & Hin & E). exists (name_key x, c). auto.
Qed.

(** The count of an entry is the number of counted authorships of the
    qualifying articles that carry its name key. *)
Lemma coauthor_items_count (raw_works : list RawWork)
  (main_author_id : string) (x : Coauthor) :
  In x (coauthor_items raw_works main_author_id) ->
  count x
  = List.length
      (filter (counted_as (_canonical_author_id main_author_id) (name_key x))
              (article_authorships raw_works)).
Proof.
  intros Hx. apply coauthor_items_In in Hx. destruct Hx as (c & Hin & E).
  unfold article_authorships. rewrite <- scan_works_counts.
  apply In_dict_get in Hin; [|apply scan_works_NoDup].
  unfold counter_get. rewrite Hin, E. reflexivity.
Qed.

(** One entry per name key. *)
Lemma coauthor_items_unique (raw_works : list RawWork)
  (main_author_id : string) (x y : Coauthor) :
  In x (coauthor_items raw_works main_author_id) ->
  In y (coauthor_items raw_works main_author_id) ->
  name_key x = name_key y -> x = y.
Proof.
  intros Hx Hy Ek. apply coauthor_items_In in Hx, Hy.
  destruct Hx as (c & Hc & Ex), Hy as (c' & Hc' & Ey).
  apply In_dict_get in Hc, Hc'; try apply scan_works_NoDup.
  rewrite Ek in Hc. rewrite Ex, Ey, Ek. congruence.
Qed.

(** A key that counted at least one authorship has an entry. *)
Lemma coauthor_items_present (raw_works : list RawWork)
  (main_author_id : string) (a : Authorship) (k : string) :
  In a (article_authorships raw_works) ->
  counted_key (_canonical_author_id main_author_id) a = Some k ->
  exists x, In x (coauthor_items raw_works main_author_id) /\ name_key x = k.
Proof.
  intros Hin Hk.
  set (t := scan_works (_canonical_author_id main_author_id)
              (filter is_published_article raw_works)).
  assert (Hpos : counter_get k (name_counts t) <> O).
  { unfold t. rewrite scan_works_counts.
    assert (Hf : In a (filter (counted_as (_canonical_author_id main_author_id) k)
                         (all_authorships (filter is_published_article raw_works)))).
    { apply filter_In. split; [exact Hin|]. unfold counted_as. rewrite Hk.
      apply String.eqb_refl. }
    destruct (filter (counted_as _ k) _); [contradiction|simpl; lia]. }
  unfold counter_get in Hpos.
  destruct (dict_get k (name_counts t)) as [c|] eqn:E; [|congruence].
  apply dict_get_In in E. exists (make_item t (k, c)). split; [|reflexivity].
  apply coauthor_items_In. exists c. fold t. simpl. auto.
Qed.


(** ** Identifiers merged under a name key *)

Lemma In_keys_dict_set {V} (k k' : string) (v : V) (d : dict V) :
  In k' (keys (dict_set k v d)) <-> k' = k \/ In k' (keys d).
Proof.
  rewrite keys_dict_set. unfold dict_mem.
  destruct (dict_get k d) as [v0|] eqn:E.
  - apply dict_get_In in E. split; [now right|].
    intros [->|Hin]; [|assumption].
    change k with (fst (k, v0)). now apply in_map.
  - rewrite in_app_iff. simpl. intuition congruence.
Qed.

Lemma counted_pair_key (main_id : string) (a : Authorship) :
  counted_key main_id a = option_map fst (counted_pair main_id a).
Proof.
  unfold counted_key, counted_pair.
  destruct (truthy (au_id (author_of a))) as [aid|]; [|reflexivity].
  destruct (String.eqb aid main_id); [reflexivity|]. cbv zeta.
  now destruct (String.eqb _ "").
Qed.

Lemma scan_authorship_name_ids (main_id : string) (t : Tables)
  (a : Authorship) :
  name_ids (scan_authorship main_id t a)
  = match counted_pair main_id a with
    | Some (k, aid) => ids_incr k aid (name_ids t)
    | None => name_ids t
    end.
Proof.
  unfold scan_authorship, counted_pair.
  destruct (truthy (au_id (author_of a))) as [aid|]; [|reflexivity].
  destruct (String.eqb aid main_id); [reflexivity|]. cbv zeta.
  now destruct (String.eqb _ "").
Qed.

Lemma counted_pairs_app (main_id : string) (l1 l2 : list Authorship) :
  counted_pairs main_id (l1 ++ l2)
  = (counted_pairs main_id l1 ++ counted_pairs main_id l2)%list.
Proof.
  induction l1 as [|a l1 IH]; [reflexivity|]. simpl.
  destruct (counted_pair main_id a); simpl; now rewrite IH.
Qed.

Section MergedIds.
Variable main_id : string.

Lemma ids_listed_step (seen : list Authorship) (t : Tables) (a : Authorship) :
  ids_listed main_id seen t ->
  ids_listed main_id (seen ++ [a]) (scan_authorship main_id t a).
Proof.
  intros [Hsound Hcomplete]. unfold ids_listed.
  rewrite scan_authorship_name_ids, counted_pairs_app. simpl.
  destruct (counted_pair main_id a) as [[k aid]|].
  2:{ simpl. rewrite app_nil_r. split; assumption. }
  simpl. unfold ids_incr. split.
  - intros k' c Hget. destruct (String.eqb_spec k k') as [<-|Hk].
    + rewrite dict_get_set_eq in Hget. injection Hget as <-.
      unfold counter_incr. split.
      * apply NoDup_keys_dict_set.
        destruct (dict_get k (name_ids t)) as [c0|] eqn:E; [|constructor].
        now apply Hsound in E.
      * intros aid'. rewrite In_keys_dict_set, in_app_iff. simpl.
        destruct (dict_get k (name_ids t)) as [c0|] eqn:E.
        -- apply Hsound in E. destruct E as [_ E]. rewrite E.
           intuition congruence.
        -- split.
           ++ intros [->|[]]. right. now left.
           ++ intros [Hin|[[= ->]|[]]]; [|now left].
              apply Hcomplete in Hin. destruct Hin as [c0 Hc0]. congruence.
    + rewrite dict_get_set_neq in Hget by assumption.
      apply Hsound in Hget. destruct Hget as [Hnd Hin].
      split; [assumption|]. intros aid'. rewrite Hin, in_app_iff. simpl.
      intuition congruence.
  - intros k' aid' Hin. apply in_app_iff in Hin.
    destruct (String.eqb_spec k k') as [<-|Hk].
    + rewrite dict_get_set_eq. eauto.
    + rewrite dict_get_set_neq by assumption.
      destruct Hin as [Hin|[[= -> ->]|[]]]; [|congruence].
      eapply Hcomplete; eassumption.
Qed.

Lemma ids_listed_fold (l : list Authorship) :
  forall seen t,
    ids_listed main_id seen t ->
    ids_listed main_id (seen ++ l) (fold_left (scan_authorship main_id) l t).
Proof.
  induction l as [|a l IH]; intros seen t Hinv; simpl.
  - now rewrite app_nil_r.
  - replace (seen ++ a :: l)%list with ((seen ++ [a]) ++ l)%list
      by (rewrite <- app_assoc; reflexivity).
    apply IH. now apply ids_listed_step.
Qed.

Lemma scan_works_ids_listed (ws : list RawWork) :
  ids_listed main_id (all_authorships ws) (scan_works main_id ws).
Proof.
  unfold scan_works. rewrite scan_works_flat.
  apply (ids_listed_fold (all_authorships ws) [] empty_tables).
  split; [discriminate|]. intros k aid [].
Qed.

End MergedIds.

(** The merged-identifier count of an entry is the length of a list without
    repetition of the identifiers counted under its name key. *)
Lemma coauthor_items_merged_ids (raw_works : list RawWork)
  (main_author_id : string) (x : Coauthor) :
  In x (coauthor_items raw_works main_author_id) ->
  exists ids,
    merged_ids x = List.length ids
    /\ NoDup ids
    /\ forall aid,
         In aid ids
         <-> In (name_key x, aid)
               (counted_pairs (_canonical_author_id main_author_id)
                  (article_authorships raw_works)).
Proof.
  intros Hx. pose proof (coauthor_items_count _ _ _ Hx) as Hc.
  apply coauthor_items_In in Hx. destruct Hx as (c & Hin & E).
  set (m := _canonical_author_id main_author_id) in *.
  set (t := scan_works m (filter is_published_article raw_works)) in *.
  destruct (scan_works_ids_listed m (filter is_published_article raw_works))
    as [Hsound Hcomplete]. fold t in Hsound, Hcomplete.
  destruct (dict_get (name_key x) (name_ids t)) as [ids|] eqn:Eids.
  - destruct (Hsound _ _ Eids) as [Hnd Hiff].
    exists (keys ids). split; [|split; assumption].
    rewrite E. cbn [merged_ids make_item fst]. rewrite Eids.
    unfold keys. now rewrite length_map.
  - exists []. split; [|split; [constructor|]].
    + rewrite E. cbn [merged_ids make_item fst]. now rewrite Eids.
    + intros aid. split; [intros []|]. intros Hp.
      apply Hcomplete in Hp. destruct Hp as [c0 Hc0]. congruence.
Qed.

Lemma NoDup_pair_length {A} (l : list A) (a b : A) :
  NoDup l -> a <> b -> (forall z, In z l <-> z = a \/ z = b) ->
  List.length l = 2%nat.
Proof.
  intros Hnd Hab Hl.
  assert (Hp : Permutation l [a; b]).
  { apply NoDup_Permutation; [assumption| |].
    - constructor; [simpl; intuition congruence|]. constructor; [simpl; tauto|].
      constructor.
    - intros z. rewrite Hl. simpl. intuition congruence. }
  now rewrite (Permutation_length Hp).
Qed.

(** Two distinct identifiers, and no other, counted under one name key give
    an entry with [merged_ids = 2]. *)
Lemma coauthor_items_two_ids (raw_works : list RawWork)
  (main_author_id : string) (x : Coauthor) (id1 id2 : string) :
  In x (coauthor_items raw_works main_author_id) ->
  id1 <> id2 ->
  (forall aid,
     In (name_key x, aid)
        (counted_pairs (_canonical_author_id main_author_id)
           (article_authorships raw_works))
     <-> aid = id1 \/ aid = id2) ->
  merged_ids x = 2%nat.
Proof.
  intros Hx Hne Hids.
  destruct (coauthor_items_merged_ids _ _ _ Hx) as (ids & -> & Hnd & Hiff).
  apply (NoDup_pair_length ids id1 id2); [assumption..|].
  intros z. now rewrite Hiff, Hids.
Qed.

Lemma filter_flat_map_length {A B} (p : B -> bool) (f : A -> list B)
  (l : list A) :
  (forall a, In a l -> (List.length (filter p (f a)) <= 1)%nat) ->
  List.length (filter p (flat_map f l))
  = List.length (filter (fun a => existsb p (f a)) l).
Proof.
  induction l as [|a l IH]; intros Hone; [reflexivity|].
  simpl. rewrite filter_app, length_app, IH
    by (intros b Hb; apply Hone; now right).
  pose proof (Hone a (or_introl eq_refl)) as Ha.
  destruct (existsb p (f a)) eqn:Ex.
  - apply existsb_exists in Ex. destruct Ex as (b & Hb & Hp).
    assert (Hin : In b (filter p (f a))) by (apply filter_In; auto).
    destruct (filter p (f a)) as [|? [|? ?]]; simpl in *; [tauto|lia|lia].
  - destruct (filter p (f a)) as [|b r] eqn:Ef; [reflexivity|].
    assert (Hin : In b (filter p (f a))) by (rewrite Ef; now left).
    apply filter_In in Hin. destruct Hin as [Hin Hp].
    assert (existsb p (f a) = true) by (apply existsb_exists; eauto).
    congruence.
Qed.

(** While no qualifying article lists a name key more than once, the count
    of its entry is the number of qualifying articles that list it. *)
Lemma coauthor_items_count_articles (raw_works : list RawWork)
  (main_author_id : string) (x : Coauthor) :
  let counted :=
    counted_as (_canonical_author_id main_author_id) (name_key x) in
  In x (coauthor_items raw_works main_author_id) ->
  (forall w, In w (filter is_published_article raw_works) ->
     (List.length (filter counted (authorships_of w)) <= 1)%nat) ->
  count x
  = List.length
      (filter (fun w => existsb counted (authorships_of w))
              (filter is_published_article raw_works)).
Proof.
  intros counted Hx Hone. rewrite (coauthor_items_count _ _ _ Hx).
  unfold article_authorships, all_authorships.
  now apply filter_flat_map_length.
Qed.

(** ** Co-author ranking *)

(** C1 fails on one article listing two identifiers under one name: the
    single entry has [merged_ids = 2] and counts the article twice. *)
Theorem merged_names_count_article_twice :
  compute_coauthor_ranking_articles_only_merge_by_name
    [shared_article] "A1" TOP_COAUTHORS
  = ([{| name_key := "j. smith"; name := "J. Smith"; count := 2;
         author_id := Some "https://openalex.org/A2"; merged_ids := 2 |}],
     1%nat).
Proof. reflexivity. Qed.


Lemma ge_key_coauthor_precedes (x y : Coauthor) :
  ge_key coauthor_key x y -> coauthor_precedes x y.
Proof.
  unfold ge_key, coauthor_key, coauthor_precedes. simpl.
  destruct (Nat.compare_spec (count x) (count y)) as [E|L|G];
    [|congruence|now left].
  right. split; [assumption|].
  unfold String.leb. rewrite String.compare_antisym.
  destruct (String.compare (name x) (name y)); simpl; congruence.
Qed.



(** ** Self-exclusion *)






(** ** Scope filter *)

(** C6: the number returned beside the ranking is the number of works whose
    type, lower-cased and stripped, is "article"; the count of every entry is
    a number of authorships of those works alone; and a work of any other
    type, wherever it stands in the list, leaves the result unchanged. *)
Theorem only_articles_counted (raw_works : list RawWork)
  (main_author_id : string) (top_n : Z) :
  let res := compute_coauthor_ranking_articles_only_merge_by_name
               raw_works main_author_id top_n in
  snd res = List.length (filter is_published_article raw_works)
  /\ (forall w, is_published_article w = true
                <-> strip (lower (str_or (work_type w) "")) = "article")
  /\ (forall x, In x (fst res) ->
        count x
        = List.length
            (filter (counted_as (_canonical_author_id main_author_id)
                                (name_key x))
               (flat_map authorships_of
                  (filter is_published_article raw_works))))
  /\ (forall ws1 w ws2,
        raw_works = (ws1 ++ w :: ws2)%list ->
        is_published_article w = false ->
        res = compute_coauthor_ranking_articles_only_merge_by_name
                (ws1 ++ ws2) main_author_id top_n).
Proof.
  cbn zeta. split; [reflexivity|]. split; [|split].
  - intros w. unfold is_published_article. apply String.eqb_eq.
  - intros x Hx. cbn [fst
      compute_coauthor_ranking_articles_only_merge_by_name] in Hx.
    apply slice_to_In in Hx. now apply coauthor_items_count.
  - intros ws1 w ws2 -> Hw.
    unfold compute_coauthor_ranking_articles_only_merge_by_name,
      coauthor_items.
    rewrite !filter_app. cbn [filter]. now rewrite Hw.
Qed.

(** ** Missing display names *)

Lemma nameless_counted_key (main_id : string) (a : Authorship) :
  nameless_coauthor main_id a = true ->
  counted_key main_id a = Some "unknown".
Proof.
  unfold nameless_coauthor, counted_key, str_or.
  destruct (truthy (au_id (author_of a))) as [aid|]; [|discriminate].
  destruct (String.eqb aid main_id); [discriminate|].
  destruct (truthy (au_display_name (author_of a))); [discriminate|].
  reflexivity.
Qed.

Lemma filter_length_le {A} (p q : A -> bool) (l : list A) :
  (forall a, p a = true -> q a = true) ->
  (List.length (filter p l) <= List.length (filter q l))%nat.
Proof.
  intros Hpq. induction l as [|a l IH]; simpl; [lia|].
  destruct (p a) eqn:Ep.
  - rewrite (Hpq a Ep). simpl. lia.
  - destruct (q a); simpl; lia.
Qed.

(** C10: an authorship of a qualifying article that has an identifier other
    than the subject's and no display name is not passed over: the scan
    counts it under the key "unknown" with the display name "Unknown"; the
    ranking before the slice has exactly one entry of that key, and its count
    covers all such authorships. *)
Theorem nameless_coauthors_merge_as_unknown (raw_works : list RawWork)
  (main_author_id : string) (a : Authorship)
  (Ha : In a (article_authorships raw_works))
  (Hn : nameless_coauthor (_canonical_author_id main_author_id) a = true) :
  let main_id := _canonical_author_id main_author_id in
  (exists aid,
     truthy (au_id (author_of a)) = Some aid
     /\ forall t,
          scan_authorship main_id t a
          = {| name_counts := counter_incr "unknown" (name_counts t);
               name_display :=
                 display_update "unknown" "Unknown" (name_display t);
               name_ids := ids_incr "unknown" aid (name_ids t) |})
  /\ normalize_person_name (str_or (au_display_name (author_of a)) "Unknown")
     = "unknown"
  /\ exists x,
       In x (coauthor_items raw_works main_author_id)
       /\ name_key x = "unknown"
       /\ (forall y, In y (coauthor_items raw_works main_author_id) ->
             name_key y = "unknown" -> y = x)
       /\ (List.length (filter (nameless_coauthor main_id)
                          (article_authorships raw_works))
           <= count x)%nat.
Proof.
  intros main_id. subst main_id. split; [|split].
  - unfold nameless_coauthor in Hn. unfold scan_authorship, str_or.
    destruct (truthy (au_id (author_of a))) as [aid|]; [|discriminate].
    exists aid. split; [reflexivity|]. intros t.
    destruct (String.eqb aid _); [discriminate|].
    destruct (truthy (au_display_name (author_of a))); [discriminate|].
    reflexivity.
  - unfold nameless_coauthor in Hn. unfold str_or.
    destruct (truthy (au_id (author_of a))); [|discriminate].
    destruct (truthy (au_display_name (author_of a)));
      [now rewrite andb_false_r in Hn|reflexivity].
  - destruct (coauthor_items_present raw_works main_author_id a "unknown" Ha
                (nameless_counted_key _ _ Hn)) as (x & Hx & Ek).
    exists x. split; [exact Hx|]. split; [exact Ek|]. split.
    + intros y Hy Ey. eapply coauthor_items_unique; [eassumption..|].
      congruence.
    + rewrite (coauthor_items_count _ _ _ Hx), Ek. apply filter_length_le.
      intros b Hb. unfold counted_as.
      now rewrite (nameless_counted_key _ _ Hb).
Qed.

Lemma nameless_coauthors_merge_as_unknown_witness :
  exists x,
    In x (coauthor_items [nameless_article] "A1")
    /\ name_key x = "unknown"
    /\ (2 <= count x)%nat.
Proof.
  destruct (proj2 (proj2
    (nameless_coauthors_merge_as_unknown [nameless_article] "A1"
       {| author := Some {| au_id := Some "https://openalex.org/A2";
                            au_display_name := None |} |}
       ltac:(left; reflexivity) eq_refl))) as (x & Hx & Ek & _ & Hc).
  exists x. split; [exact Hx|]. split; [exact Ek|]. exact Hc.
Defined.

(** * Further properties of the rankings *)

(** ** Rate, age and citations *)

Lemma Qdiv_le_cross (a b c d : Z) :
  0 < b -> 0 < d ->
  ((inject_Z a / inject_Z b <= inject_Z c / inject_Z d)%Q
   <-> a * d <= c * b).
Proof.
  intros Hb Hd. destruct b as [|b|b]; try lia. destruct d as [|d|d]; try lia.
  unfold Qle, Qdiv, Qmult, Qinv, inject_Z. simpl. lia.
Qed.

Lemma Qdiv_le_num (a b : Z) :
  0 <= a -> 1 <= b -> (inject_Z a / inject_Z b <= inject_Z a)%Q.
Proof.
  intros Ha Hb. destruct b as [|b|b]; try lia.
  unfold Qle, Qdiv, Qmult, Qinv, inject_Z. simpl. nia.
Qed.

(** X1: with the reference year fixed, the rate does not decrease when the
    citations grow and the year is later, the citations being non-negative:
    whenever both rates are returned, the first is at most the second. *)
Theorem citation_rate_monotone (c1 c2 y1 y2 n : Z) (q1 q2 : Q)
  (Hc : 0 <= c1 <= c2) (Hy : y1 <= y2)
  (H1 : citation_rate c1 y1 n = Some q1)
  (H2 : citation_rate c2 y2 n = Some q2) :
  (q1 <= q2)%Q.
Proof.
  rewrite citation_rate_some in H1, H2.
  assert (E1 : (inject_Z c1 / inject_Z (1 + Z.max 0 (n - y1)))%Q = q1)
    by congruence.
  assert (E2 : (inject_Z c2 / inject_Z (1 + Z.max 0 (n - y2)))%Q = q2)
    by congruence.
  rewrite <- E1, <- E2.
  apply Qdiv_le_cross; [lia..|].
  apply Z.mul_le_mono_nonneg; lia.
Qed.

Lemma citation_rate_monotone_witness : (10 # 11 <= 12 # 6)%Q.
Proof.
  exact (citation_rate_monotone 10 12 2015 2020 2025 (10 # 11) (12 # 6)
           ltac:(lia) ltac:(lia) eq_refl eq_refl).
Defined.

(** ** Content of the paper ranking *)

Lemma rate_works_rebuild (now : Z) (l : list Rated) :
  Forall (fun x => exists y,
            w_year (r_work x) = Some y
            /\ citation_rate (citations_of x) y now
               = Some (citation_rate_of x)) l ->
  rate_works now (map r_work l) = Some l.
Proof.
  induction 1 as [|x l (y & Ey & Er) _ IH]; [reflexivity|].
  simpl. rewrite Ey. unfold citations_of in Er. rewrite Er, IH.
  now destruct x.
Qed.

Lemma sort_desc_sorted_id {A K} `{OrdLaws K} (key : A -> K) (l : list A) :
  StronglySorted (ge_key key) l -> sort_desc key l = l.
Proof.
  induction 1 as [|x l Hs IH Hx]; [reflexivity|].
  simpl. fold (sort_desc key l). rewrite IH.
  destruct l as [|y l]; [reflexivity|]. simpl.
  inversion Hx as [|? ? Hy _]; subst. apply lt_b_false in Hy. now rewrite Hy.
Qed.

Lemma slice_to_all {A} (n : Z) (l : list A) :
  Z.of_nat (List.length l) <= n -> slice_to n l = l.
Proof.
  intros Hn. unfold slice_to. destruct (Z.leb_spec 0 n); [|lia].
  apply firstn_all2. lia.
Qed.

Lemma slice_to_slice_to {A} (m n : Z) (l : list A) :
  0 <= m <= n -> slice_to m (slice_to n l) = slice_to m l.
Proof.
  intros Hmn. unfold slice_to.
  destruct (Z.leb_spec 0 n); [|lia]. destruct (Z.leb_spec 0 m); [|lia].
  rewrite firstn_firstn. f_equal. lia.
Qed.

Lemma StronglySorted_app_cross {A} (R : A -> A -> Prop) (l1 l2 : list A) :
  StronglySorted R (l1 ++ l2) ->
  forall x z, In x l1 -> In z l2 -> R x z.
Proof.
  induction l1 as [|a l1 IH]; simpl; intros Hs x z Hx Hz; [contradiction|].
  inversion Hs as [|? ? Hl Ha]; subst. destruct Hx as [<-|Hx].
  - rewrite Forall_forall in Ha. apply Ha, in_or_app. now right.
  - now apply IH.
Qed.

(** X2: every entry of the paper ranking is one of the given works, has a
    year, and carries the rate of the formula for its own citations and
    year; when [top_n] is at least the number of works with a year, the
    ranking holds each of them exactly once. *)
Theorem compute_rate_ranking_content (now : Z) (works : list Work)
  (top_n : Z) :
  exists out,
    compute_rate_ranking now works top_n = Some out
    /\ (forall x, In x out ->
          In (r_work x) works
          /\ exists y,
               w_year (r_work x) = Some y
               /\ citation_rate_of x
                  = (inject_Z (w_citations (r_work x))
                     / inject_Z (1 + Z.max 0 (now - y)))%Q)
    /\ (Z.of_nat (List.length (filter work_has_year works)) <= top_n ->
        Permutation (map r_work out) (filter work_has_year works)).
Proof.
  destruct (rate_works_total now works) as (rated & E & Hm & Hf).
  unfold compute_rate_ranking. rewrite E. eexists. split; [reflexivity|].
  split.
  - intros x Hx. apply slice_to_In, sort_desc_In in Hx. split.
    + assert (Hin : In (r_work x) (map r_work rated)) by now apply in_map.
      rewrite Hm in Hin. apply filter_In in Hin. tauto.
    + rewrite Forall_forall in Hf. destruct (Hf x Hx) as (y & Ey & Er).
      exists y. split; [assumption|].
      rewrite citation_rate_some in Er. now injection Er.
  - intros Hn. rewrite slice_to_all.
    + rewrite <- Hm. apply Permutation_map, sort_desc_perm.
    + rewrite sort_desc_length, <- (length_map r_work), Hm. exact Hn.
Qed.

(** X3: ranking the works of a paper ranking again, with the same year and
    the same non-negative [top_n], gives that ranking back unchanged. *)
Theorem compute_rate_ranking_idempotent (now : Z) (works : list Work)
  (top_n : Z) (out : list Rated)
  (Htop : 0 <= top_n)
  (Hout : compute_rate_ranking now works top_n = Some out) :
  compute_rate_ranking now (map r_work out) top_n = Some out.
Proof.
  destruct (rate_works_total now works) as (rated & E & Hm & Hf).
  unfold compute_rate_ranking in Hout. rewrite E in Hout.
  injection Hout as Hout.
  assert (Hf' : Forall (fun x => exists y,
                  w_year (r_work x) = Some y
                  /\ citation_rate (citations_of x) y now
                     = Some (citation_rate_of x)) out).
  { rewrite <- Hout. apply Forall_slice_to.
    eapply Permutation_Forall; [symmetry; apply sort_desc_perm|assumption]. }
  unfold compute_rate_ranking. rewrite (rate_works_rebuild now out Hf').
  f_equal. rewrite sort_desc_sorted_id.
  - rewrite <- Hout at 1. rewrite slice_to_slice_to by lia. exact Hout.
  - rewrite <- Hout. apply slice_to_sorted, sort_desc_sorted.
Qed.

Lemma compute_rate_ranking_idempotent_witness :
  compute_rate_ranking 2025
    [sample_work "a" (Some 2020) 100] 1
  = Some [{| r_work := sample_work "a" (Some 2020) 100;
             citation_rate_of := 100 # 6 |}].
Proof.
  exact (compute_rate_ranking_idempotent 2025
           [sample_work "a" (Some 2020) 100; sample_work "b" (Some 2024) 10;
            sample_work "c" None 3] 1
           [{| r_work := sample_work "a" (Some 2020) 100;
               citation_rate_of := 100 # 6 |}]
           ltac:(lia) eq_refl).
Defined.

(** X4: what the slice leaves out of the paper ranking never outranks what
    it keeps: the rated works, which are the works with a year each with its
    rate, are a permutation of the ranking followed by a rest, and every
    entry of the ranking may stand before every entry of that rest. *)
Theorem compute_rate_ranking_keeps_best (now : Z) (works : list Work)
  (top_n : Z) :
  exists out rest rated,
    compute_rate_ranking now works top_n = Some out
    /\ rate_works now works = Some rated
    /\ map r_work rated = filter work_has_year works
    /\ Permutation (out ++ rest) rated
    /\ forall x z, In x out -> In z rest -> rate_precedes x z.
Proof.
  destruct (rate_works_total now works) as (rated & E & Hm & _).
  unfold compute_rate_ranking. rewrite E.
  destruct (slice_to_prefix top_n (sort_desc rate_key rated)) as [rest Er].
  exists (slice_to top_n (sort_desc rate_key rated)), rest, rated.
  split; [reflexivity|]. split; [reflexivity|]. split; [exact Hm|]. split.
  - rewrite <- Er. apply sort_desc_perm.
  - intros x z Hx Hz. apply ge_key_rate_precedes.
    eapply StronglySorted_app_cross; [|eassumption..].
    rewrite <- Er. apply sort_desc_sorted.
Qed.

(** X5: a shorter ranking is the beginning of a longer one: for
    [0 <= m <= n] the top [m] papers are the first [m] of the top [n]
    papers, and the top [m] co-authors the first [m] of the top [n]. *)
Theorem rankings_nest (now : Z) (works : list Work)
  (raw_works : list RawWork) (main_author_id : string) (m n : Z)
  (Hmn : 0 <= m <= n) :
  (exists om on,
     compute_rate_ranking now works m = Some om
     /\ compute_rate_ranking now works n = Some on
     /\ om = firstn (Z.to_nat m) on)
  /\ fst (compute_coauthor_ranking_articles_only_merge_by_name
            raw_works main_author_id m)
     = firstn (Z.to_nat m)
         (fst (compute_coauthor_ranking_articles_only_merge_by_name
                 raw_works main_author_id n)).
Proof.
  assert (Hs : forall A (l : list A),
             slice_to m l = firstn (Z.to_nat m) (slice_to n l)).
  { intros A l. rewrite <- (slice_to_slice_to m n l Hmn). unfold slice_to at 1.
    destruct (Z.leb_spec 0 m); [reflexivity|lia]. }
  split.
  - destruct (rate_works_total now works) as (rated & E & _ & _).
    unfold compute_rate_ranking. rewrite E. do 2 eexists.
    split; [reflexivity|]. split; [reflexivity|]. apply Hs.
  - cbn [fst compute_coauthor_ranking_articles_only_merge_by_name]. apply Hs.
Qed.

Lemma rankings_nest_witness :
  fst (compute_coauthor_ranking_articles_only_merge_by_name
         [two_coauthors] "A1" 1)
  = firstn 1 (fst (compute_coauthor_ranking_articles_only_merge_by_name
                     [two_coauthors] "A1" 30)).
Proof.
  exact (proj2 (rankings_nest 2025 [] [two_coauthors] "A1" 1 30
                  ltac:(lia))).
Defined.

(** ** The ranking route *)

Lemma filter_length_bound {A} (p : A -> bool) (l : list A) :
  (List.length (filter p l) <= List.length l)%nat.
Proof.
  induction l as [|a l IH]; simpl; [lia|]. destruct (p a); simpl; lia.
Qed.

(** X6: in every answer of the route, the two counts of works it reports
    never exceed the number of fetched works, the paper ranking has at most
    30 entries and no more than there are works with a year, and the
    co-author ranking has at most 30 entries. *)
Theorem ranking_counts (now : Z) (raw : list RawWork) (author_id : string)
  (r : Ranking) (Hr : ranking now raw author_id = Some r) :
  (count_works_with_year r <= count_works_total r)%nat
  /\ (counted_article_works r <= count_works_total r)%nat
  /\ (List.length (paper_ranking r) <= 30)%nat
  /\ (List.length (paper_ranking r) <= count_works_with_year r)%nat
  /\ (List.length (coauthor_ranking r) <= 30)%nat.
Proof.
  unfold ranking in Hr.
  set (works := map normalize_work (filter has_year raw)) in *.
  destruct (rate_works_total now works) as (rated & E & Hm & _).
  unfold compute_rate_ranking in Hr. rewrite E in Hr. injection Hr as <-.
  cbn [count_works_with_year count_works_total counted_article_works
       paper_ranking coauthor_ranking fst snd
       compute_coauthor_ranking_articles_only_merge_by_name].
  assert (Hlen : forall A (l : list A),
             Z.of_nat (List.length (slice_to 30 l))
             = Z.min 30 (Z.of_nat (List.length l))).
  { intros A l. apply slice_to_length. lia. }
  unfold TOP_PAPERS, TOP_COAUTHORS.
  pose proof (Hlen _ (sort_desc rate_key rated)) as Hp.
  pose proof (Hlen _ (coauthor_items raw author_id)) as Hco.
  rewrite sort_desc_length in Hp.
  assert (Hr : (List.length rated <= List.length works)%nat).
  { rewrite <- (length_map r_work rated), Hm. apply filter_length_bound. }
  unfold works in *. rewrite length_map in *.
  pose proof (filter_length_bound has_year raw).
  pose proof (filter_length_bound is_published_article raw).
  repeat split; lia.
Qed.

Lemma ranking_counts_witness :
  exists r,
    ranking 2025 [two_coauthors] "A1" = Some r
    /\ (count_works_with_year r <= count_works_total r)%nat
    /\ (List.length (paper_ranking r) <= count_works_with_year r)%nat.
Proof.
  eexists. split; [reflexivity|].
  pose proof (ranking_counts 2025 [two_coauthors] "A1" _ eq_refl)
    as (H1 & _ & _ & H4 & _).
  split; [exact H1 | exact H4].
Defined.

(** ** Counts of the co-author entries *)

Lemma counted_pairs_key_length (main_id k : string) (l : list Authorship) :
  List.length (filter (counted_as main_id k) l)
  = List.length
      (filter (fun p => String.eqb (fst p) k) (counted_pairs main_id l)).
Proof.
  induction l as [|a l IH]; [reflexivity|]. simpl.
  unfold counted_as at 1. rewrite counted_pair_key.
  destruct (counted_pair main_id a) as [[k' aid]|]; simpl; [|exact IH].
  destruct (String.eqb k' k); simpl; now rewrite IH.
Qed.

Lemma scan_counts_positive (main_id : string) (l : list Authorship) :
  forall t, counts_positive t ->
            counts_positive (fold_left (scan_authorship main_id) l t).
Proof.
  induction l as [|a l IH]; intros t Ht; simpl; [assumption|].
  apply IH. intros k c. rewrite scan_authorship_counts.
  destruct (counted_key main_id a); [|apply Ht].
  unfold counter_incr. intros Hin. apply In_dict_set in Hin.
  destruct Hin as [[= -> ->]|Hin]; [lia|]. eapply Ht; eassumption.
Qed.

Lemma coauthor_items_count_pos (raw_works : list RawWork)
  (main_author_id : string) (x : Coauthor) :
  In x (coauthor_items raw_works main_author_id) -> (1 <= count x)%nat.
Proof.
  intros Hx. apply coauthor_items_In in Hx. destruct Hx as (c & Hin & E).
  rewrite E. cbn [count make_item snd].
  unfold scan_works in Hin. rewrite scan_works_flat in Hin.
  eapply scan_counts_positive; [|exact Hin]. intros k c' [].
Qed.

Lemma list_sum_perm (l1 l2 : list nat) :
  Permutation l1 l2 -> list_sum l1 = list_sum l2.
Proof. induction 1; simpl; lia. Qed.

Lemma counter_incr_sum (k : string) (c : counter) :
  list_sum (map snd (counter_incr k c)) = S (list_sum (map snd c)).
Proof.
  unfold counter_incr, counter_get.
  induction c as [|[k' v] c IH]; simpl; [reflexivity|].
  destruct (String.eqb k k'); simpl; [lia|]. rewrite IH. lia.
Qed.

Lemma scan_counts_sum (main_id : string) (l : list Authorship) :
  forall t,
    list_sum (map snd (name_counts (fold_left (scan_authorship main_id) l t)))
    = (list_sum (map snd (name_counts t))
       + List.length (counted_pairs main_id l))%nat.
Proof.
  induction l as [|a l IH]; intros t; simpl; [lia|].
  rewrite IH, scan_authorship_counts, counted_pair_key.
  destruct (counted_pair main_id a) as [[k aid]|];
    cbn [option_map fst counted_pairs List.length]; [|lia].
  rewrite counter_incr_sum. lia.
Qed.

Lemma NoDup_incl_filter_length (k : string) (ids : list string)
  (pairs : list (string * string)) :
  NoDup ids ->
  (forall aid, In aid ids -> In (k, aid) pairs) ->
  (List.length ids
   <= List.length (filter (fun p => String.eqb (fst p) k) pairs))%nat.
Proof.
  intros Hnd Hin. rewrite <- (length_map (pair k) ids).
  apply NoDup_incl_length.
  - clear Hin. induction Hnd as [|a l Ha _ IH]; simpl; constructor;
      [|assumption].
    rewrite in_map_iff. intros (b & [= ->] & Hb). contradiction.
  - intros p Hp. apply in_map_iff in Hp. destruct Hp as (aid & <- & Ha).
    apply filter_In. split; [now apply Hin|]. simpl. apply String.eqb_refl.
Qed.

(** X7: every entry of the co-author ranking counts at least one
    authorship, and merges at least one and at most [count] identifiers. *)
Theorem coauthor_counts_bounds (raw_works : list RawWork)
  (main_author_id : string) (top_n : Z) (x : Coauthor)
  (Hx : In x (fst (compute_coauthor_ranking_articles_only_merge_by_name
                     raw_works main_author_id top_n))) :
  (1 <= count x)%nat /\ (1 <= merged_ids x <= count x)%nat.
Proof.
  cbn [fst compute_coauthor_ranking_articles_only_merge_by_name] in Hx.
  apply slice_to_In in Hx.
  pose proof (coauthor_items_count_pos _ _ _ Hx) as Hpos.
  pose proof (coauthor_items_count _ _ _ Hx) as Hc.
  destruct (coauthor_items_merged_ids _ _ _ Hx) as (ids & Em & Hnd & Hiff).
  rewrite counted_pairs_key_length in Hc.
  split; [assumption|]. rewrite Em. split.
  - destruct (filter _ _) as [|[k aid] r] eqn:Ef; [simpl in Hc; lia|].
    assert (Hin : In (k, aid) ((k, aid) :: r)) by now left.
    rewrite <- Ef in Hin. apply filter_In in Hin. destruct Hin as [Hin Hk].
    simpl in Hk. apply String.eqb_eq in Hk. subst k.
    apply Hiff in Hin. destruct ids; [contradiction|simpl; lia].
  - rewrite Hc. apply NoDup_incl_filter_length; [assumption|].
    intros aid. apply Hiff.
Qed.

Lemma coauthor_counts_bounds_witness :
  (1 <= 2)%nat /\ (1 <= 2 <= 2)%nat.
Proof.
  exact (coauthor_counts_bounds [shared_article] "A1" 30
           {| name_key := "j. smith"; name := "J. Smith"; count := 2;
              author_id := Some "https://openalex.org/A2";
              merged_ids := 2 |}
           (or_introl eq_refl)).
Defined.

(** X8: the counts of all entries before the slice add up to the number of
    authorships the scan counted: each counted authorship is in exactly one
    entry. *)
Theorem coauthor_counts_total (raw_works : list RawWork)
  (main_author_id : string) :
  list_sum (map count (coauthor_items raw_works main_author_id))
  = List.length
      (counted_pairs (_canonical_author_id main_author_id)
         (article_authorships raw_works)).
Proof.
  unfold coauthor_items.
  set (m := _canonical_author_id main_author_id).
  set (t := scan_works m (filter is_published_article raw_works)).
  rewrite (list_sum_perm _ _
             (Permutation_map count (sort_desc_perm coauthor_key _))).
  rewrite map_map. cbn [count make_item].
  unfold t, scan_works. rewrite scan_works_flat, scan_counts_sum.
  reflexivity.
Qed.

(** ** The identifier and the display name of an entry *)

Lemma counted_disps_app (main_id : string) (l1 l2 : list Authorship) :
  counted_disps main_id (l1 ++ l2)
  = (counted_disps main_id l1 ++ counted_disps main_id l2)%list.
Proof.
  induction l1 as [|a l1 IH]; [reflexivity|]. simpl.
  destruct (counted_disp main_id a); simpl; now rewrite IH.
Qed.

Lemma counted_disps_In (main_id : string) (l : list Authorship)
  (a : Authorship) (p : string * string) :
  In a l -> counted_disp main_id a = Some p -> In p (counted_disps main_id l).
Proof.
  induction l as [|b l IH]; simpl; [tauto|]. intros [->|Hin] E.
  - rewrite E. now left.
  - destruct (counted_disp main_id b); [right|]; now apply IH.
Qed.

Lemma counted_disps_key (main_id : string) (l : list Authorship)
  (k d : string) :
  In (k, d) (counted_disps main_id l) -> normalize_person_name d = k.
Proof.
  induction l as [|a l IH]; simpl; [tauto|].
  destruct (counted_disp main_id a) as [p|] eqn:E; [|exact IH].
  intros [->|Hin]; [|now apply IH].
  unfold counted_disp, counted_pair in E.
  destruct (truthy (au_id (author_of a))) as [aid|]; [|discriminate].
  destruct (String.eqb aid main_id); [discriminate|]. cbv zeta in E.
  destruct (String.eqb _ ""); [discriminate|]. now injection E as <- <-.
Qed.

Lemma counted_disp_key (main_id : string) (a : Authorship) (k : string) :
  counted_key main_id a = Some k ->
  exists d, counted_disp main_id a = Some (k, d).
Proof.
  rewrite counted_pair_key. unfold counted_disp.
  destruct (counted_pair main_id a) as [[k' aid]|]; [|discriminate].
  intros [= <-]. eauto.
Qed.

Lemma scan_authorship_name_display (main_id : string) (t : Tables)
  (a : Authorship) :
  name_display (scan_authorship main_id t a)
  = match counted_disp main_id a with
    | Some (k, d) => display_update k d (name_display t)
    | None => name_display t
    end.
Proof.
  unfold scan_authorship, counted_disp, counted_pair.
  destruct (truthy (au_id (author_of a))) as [aid|]; [|reflexivity].
  destruct (String.eqb aid main_id); [reflexivity|]. cbv zeta.
  now destruct (String.eqb _ "").
Qed.

Lemma occurrences_app (k aid : string) (l1 l2 : list (string * string)) :
  occurrences k aid (l1 ++ l2)
  = (occurrences k aid l1 + occurrences k aid l2)%nat.
Proof. unfold occurrences. now rewrite filter_app, length_app. Qed.

Lemma occurrences_absent (k aid : string) (l : list (string * string)) :
  ~ In (k, aid) l -> occurrences k aid l = O.
Proof.
  intros Hn. unfold occurrences.
  destruct (filter _ l) as [|[k' aid'] r] eqn:E; [reflexivity|].
  assert (Hin : In (k', aid') ((k', aid') :: r)) by now left.
  rewrite <- E in Hin. apply filter_In in Hin. destruct Hin as [Hin Hb].
  simpl in Hb. apply andb_true_iff in Hb. destruct Hb as [H1 H2].
  apply String.eqb_eq in H1, H2. subst. contradiction.
Qed.

Section Resolved.
Variable main_id : string.

Lemma display_longest_step (seen : list Authorship) (t : Tables)
  (a : Authorship) :
  display_longest main_id seen t ->
  display_longest main_id (seen ++ [a]) (scan_authorship main_id t a).
Proof.
  intros [Hs Hc]. unfold display_longest.
  rewrite scan_authorship_name_display, counted_disps_app. simpl.
  destruct (counted_disp main_id a) as [[k d]|].
  2:{ simpl. rewrite app_nil_r. split; assumption. }
  simpl. unfold display_update.
  destruct (dict_get k (name_display t)) as [old|] eqn:E.
  - destruct (Hs _ _ E) as [Hold Hmax].
    destruct (Nat.ltb_spec (String.length old) (String.length d)) as [L|L].
    + split.
      * intros k' d0 Hget. destruct (String.eqb_spec k k') as [<-|Hk].
        -- rewrite dict_get_set_eq in Hget. injection Hget as <-.
           split; [apply in_or_app; right; now left|].
           intros d' Hin. apply in_app_iff in Hin.
           destruct Hin as [Hin|[[= ->]|[]]]; [|lia].
           apply Hmax in Hin. lia.
        -- rewrite dict_get_set_neq in Hget by assumption.
           destruct (Hs _ _ Hget) as [H1 H2].
           split; [apply in_or_app; now left|].
           intros d' Hin. apply in_app_iff in Hin.
           destruct Hin as [Hin|[[= -> _]|[]]]; [now apply H2|congruence].
      * intros k' d' Hin. destruct (String.eqb_spec k k') as [<-|Hk].
        -- rewrite dict_get_set_eq. eauto.
        -- rewrite dict_get_set_neq by assumption. apply in_app_iff in Hin.
           destruct Hin as [Hin|[[= -> _]|[]]]; [|congruence].
           eapply Hc; eassumption.
    + split.
      * intros k' d0 Hget. destruct (Hs _ _ Hget) as [H1 H2].
        split; [apply in_or_app; now left|].
        intros d' Hin. apply in_app_iff in Hin.
        destruct Hin as [Hin|[[= -> ->]|[]]]; [now apply H2|].
        rewrite E in Hget. injection Hget as <-. exact L.
      * intros k' d' Hin. apply in_app_iff in Hin.
        destruct Hin as [Hin|[[= -> _]|[]]]; [|eauto].
        eapply Hc; eassumption.
  - split.
    + intros k' d0 Hget. destruct (String.eqb_spec k k') as [<-|Hk].
      * rewrite dict_get_set_eq in Hget. injection Hget as <-.
        split; [apply in_or_app; right; now left|].
        intros d' Hin. apply in_app_iff in Hin.
        destruct Hin as [Hin|[[= ->]|[]]]; [|lia].
        apply Hc in Hin. destruct Hin as [d0 Hd0]. congruence.
      * rewrite dict_get_set_neq in Hget by assumption.
        destruct (Hs _ _ Hget) as [H1 H2].
        split; [apply in_or_app; now left|].
        intros d' Hin. apply in_app_iff in Hin.
        destruct Hin as [Hin|[[= -> _]|[]]]; [now apply H2|congruence].
    + intros k' d' Hin. destruct (String.eqb_spec k k') as [<-|Hk].
      * rewrite dict_get_set_eq. eauto.
      * rewrite dict_get_set_neq by assumption. apply in_app_iff in Hin.
        destruct Hin as [Hin|[[= -> _]|[]]]; [|congruence].
        eapply Hc; eassumption.
Qed.

Lemma display_longest_fold (l : list Authorship) :
  forall seen t,
    display_longest main_id seen t ->
    display_longest main_id (seen ++ l)
      (fold_left (scan_authorship main_id) l t).
Proof.
  induction l as [|a l IH]; intros seen t Hinv; simpl.
  - now rewrite app_nil_r.
  - replace (seen ++ a :: l)%list with ((seen ++ [a]) ++ l)%list
      by (rewrite <- app_assoc; reflexivity).
    apply IH. now apply display_longest_step.
Qed.

Lemma scan_works_display_longest (ws : list RawWork) :
  display_longest main_id (all_authorships ws) (scan_works main_id ws).
Proof.
  unfold scan_works. rewrite scan_works_flat.
  apply (display_longest_fold (all_authorships ws) [] empty_tables).
  split; [discriminate|]. intros k d [].
Qed.

Lemma ids_counted_step (seen : list Authorship) (t : Tables)
  (a : Authorship) :
  ids_listed main_id seen t ->
  ids_counted main_id seen t ->
  ids_counted main_id (seen ++ [a]) (scan_authorship main_id t a).
Proof.
  intros [_ Hcomplete] Hinv. unfold ids_counted.
  rewrite scan_authorship_name_ids, counted_pairs_app. simpl.
  destruct (counted_pair main_id a) as [[k aid]|].
  2:{ simpl. rewrite app_nil_r. exact Hinv. }
  simpl. unfold ids_incr. intros k' c aid' Hget.
  rewrite occurrences_app. unfold occurrences at 2. simpl.
  destruct (String.eqb_spec k k') as [<-|Hk].
  - rewrite dict_get_set_eq in Hget. injection Hget as <-.
    rewrite counter_get_incr. simpl.
    assert (Hold : counter_get aid'
                     match dict_get k (name_ids t) with
                     | Some c0 => c0
                     | None => []
                     end
                   = occurrences k aid' (counted_pairs main_id seen)).
    { destruct (dict_get k (name_ids t)) as [c0|] eqn:E;
        [now apply Hinv|].
      rewrite occurrences_absent; [reflexivity|].
      intros Hin. apply Hcomplete in Hin. destruct Hin as [c0 Hc0].
      congruence. }
    rewrite Hold. destruct (String.eqb aid aid'); simpl; lia.
  - rewrite dict_get_set_neq in Hget by assumption. simpl.
    rewrite (Hinv _ _ aid' Hget). lia.
Qed.

Lemma ids_counted_fold (l : list Authorship) :
  forall seen t,
    ids_listed main_id seen t ->
    ids_counted main_id seen t ->
    ids_counted main_id (seen ++ l)
      (fold_left (scan_authorship main_id) l t).
Proof.
  induction l as [|a l IH]; intros seen t Hl Hc; simpl.
  - now rewrite app_nil_r.
  - replace (seen ++ a :: l)%list with ((seen ++ [a]) ++ l)%list
      by (rewrite <- app_assoc; reflexivity).
    apply IH; [now apply ids_listed_step|now apply ids_counted_step].
Qed.

Lemma scan_works_ids_counted (ws : list RawWork) :
  ids_counted main_id (all_authorships ws) (scan_works main_id ws).
Proof.
  unfold scan_works. rewrite scan_works_flat.
  apply (ids_counted_fold (all_authorships ws) [] empty_tables).
  - split; [discriminate|]. intros k aid [].
  - intros k c aid. discriminate.
Qed.

End Resolved.

Lemma first_max_max (l : list (string * nat)) :
  forall best e, In e (best :: l) -> (snd e <= snd (first_max best l))%nat.
Proof.
  induction l as [|a l IH]; intros best e Hin; simpl.
  - destruct Hin as [<-|[]]. lia.
  - destruct (Nat.ltb_spec (snd best) (snd a)) as [L|L].
    + destruct Hin as [<-|Hin].
      * pose proof (IH a a (or_introl eq_refl)). lia.
      * now apply IH.
    + destruct Hin as [<-|[<-|Hin]].
      * apply IH. now left.
      * pose proof (IH best best (or_introl eq_refl)). lia.
      * apply IH. now right.
Qed.

(** A counted authorship stands behind every entry. *)
Lemma coauthor_items_counted (raw_works : list RawWork)
  (main_author_id : string) (x : Coauthor) :
  In x (coauthor_items raw_works main_author_id) ->
  exists a,
    In a (article_authorships raw_works)
    /\ counted_key (_canonical_author_id main_author_id) a
       = Some (name_key x).
Proof.
  intros Hx. pose proof (coauthor_items_count_pos _ _ _ Hx) as Hpos.
  rewrite (coauthor_items_count _ _ _ Hx) in Hpos.
  destruct (filter _ (article_authorships raw_works)) as [|a r] eqn:E;
    [simpl in Hpos; lia|].
  assert (Hin : In a (a :: r)) by now left.
  rewrite <- E in Hin. apply filter_In in Hin. destruct Hin as [Hin Hc].
  exists a. split; [assumption|]. unfold counted_as in Hc.
  destruct (counted_key _ a) as [k|]; [|discriminate].
  apply String.eqb_eq in Hc. now subst.
Qed.

Lemma counted_pairs_In (main_id : string) (l : list Authorship)
  (a : Authorship) (p : string * string) :
  In a l -> counted_pair main_id a = Some p -> In p (counted_pairs main_id l).
Proof.
  induction l as [|b l IH]; simpl; [tauto|]. intros [->|Hin] E.
  - rewrite E. now left.
  - destruct (counted_pair main_id b); [right|]; now apply IH.
Qed.

(** X9: every entry of the co-author ranking carries an identifier; it is
    one of the identifiers counted under the entry's name key, and none of
    them is counted under that key more often. *)
Theorem coauthor_resolved_id (raw_works : list RawWork)
  (main_author_id : string) (top_n : Z) (x : Coauthor)
  (Hx : In x (fst (compute_coauthor_ranking_articles_only_merge_by_name
                     raw_works main_author_id top_n))) :
  let pairs := counted_pairs (_canonical_author_id main_author_id)
                 (article_authorships raw_works) in
  exists best,
    author_id x = Some best
    /\ In (name_key x, best) pairs
    /\ forall aid,
         (occurrences (name_key x) aid pairs
          <= occurrences (name_key x) best pairs)%nat.
Proof.
  cbn [fst compute_coauthor_ranking_articles_only_merge_by_name] in Hx.
  apply slice_to_In in Hx. intros pairs.
  destruct (coauthor_items_counted _ _ _ Hx) as (a & Ha & Hk).
  apply coauthor_items_In in Hx. destruct Hx as (c & _ & E).
  set (m := _canonical_author_id main_author_id) in *.
  set (t := scan_works m (filter is_published_article raw_works)) in *.
  destruct (scan_works_ids_listed m (filter is_published_article raw_works))
    as [Hsound Hcomplete].
  pose proof (scan_works_ids_counted m
                (filter is_published_article raw_works)) as Hocc.
  fold t in Hsound, Hcomplete, Hocc.
  fold (article_authorships raw_works) in Hsound, Hcomplete, Hocc.
  fold pairs in Hsound, Hcomplete, Hocc.
  rewrite counted_pair_key in Hk.
  destruct (counted_pair m a) as [[k0 aid0]|] eqn:Ea; [|discriminate].
  injection Hk as ->.
  assert (Hp0 : In (name_key x, aid0) pairs)
    by (eapply counted_pairs_In; eassumption).
  destruct (Hcomplete _ _ Hp0) as [ids Hids].
  destruct (Hsound _ _ Hids) as [Hnd Hiff].
  destruct ids as [|e ids'] eqn:Eids.
  { apply Hiff in Hp0. contradiction. }
  rewrite <- Eids in *.
  assert (Hmc : most_common_1 ids = Some (first_max e ids'))
    by now rewrite Eids.
  destruct (first_max e ids') as [best n] eqn:Ef.
  assert (Hbest : In (best, n) ids).
  { rewrite Eids, <- Ef. apply first_max_In. }
  exists best. split; [|split].
  - rewrite E. cbn [author_id make_item fst]. now rewrite Hids, Hmc.
  - apply Hiff. change best with (fst (best, n)). now apply in_map.
  - intros aid. rewrite <- !(Hocc _ _ _ Hids).
    unfold counter_get. rewrite (In_dict_get _ _ _ Hnd Hbest).
    destruct (dict_get aid ids) as [n'|] eqn:Eg; [|lia].
    apply dict_get_In in Eg. rewrite Eids in Eg.
    pose proof (first_max_max ids' e (aid, n') Eg) as Hle.
    rewrite Ef in Hle. exact Hle.
Qed.

Lemma coauthor_resolved_id_witness :
  exists best,
    Some "https://openalex.org/A2" = Some best
    /\ In ("j. smith", best)
          (counted_pairs (_canonical_author_id "A1")
             (article_authorships [shared_article])).
Proof.
  destruct (coauthor_resolved_id [shared_article] "A1" 30
              {| name_key := "j. smith"; name := "J. Smith"; count := 2;
                 author_id := Some "https://openalex.org/A2";
                 merged_ids := 2 |}
              (or_introl eq_refl)) as (best & E & Hin & _).
  exists best. split; [exact E | exact Hin].
Defined.

Lemma coauthor_items_display_name (raw_works : list RawWork)
  (main_author_id : string) (x : Coauthor) :
  In x (coauthor_items raw_works main_author_id) ->
  let disps := counted_disps (_canonical_author_id main_author_id)
                 (article_authorships raw_works) in
  In (name_key x, name x) disps
  /\ normalize_person_name (name x) = name_key x
  /\ forall d, In (name_key x, d) disps ->
       (String.length d <= String.length (name x))%nat.
Proof.
  intros Hx disps.
  destruct (coauthor_items_counted _ _ _ Hx) as (a & Ha & Hk).
  apply coauthor_items_In in Hx. destruct Hx as (c & _ & E).
  set (m := _canonical_author_id main_author_id) in *.
  set (t := scan_works m (filter is_published_article raw_works)) in *.
  destruct (scan_works_display_longest m
              (filter is_published_article raw_works)) as [Hs Hc].
  fold t in Hs, Hc. fold (article_authorships raw_works) in Hs, Hc.
  fold disps in Hs, Hc.
  destruct (counted_disp_key _ _ _ Hk) as [d0 Hd0].
  assert (Hin0 : In (name_key x, d0) disps)
    by (eapply counted_disps_In; eassumption).
  destruct (Hc _ _ Hin0) as [d Hd].
  assert (En : name x = d).
  { rewrite E. cbn [name make_item fst]. now rewrite Hd. }
  destruct (Hs _ _ Hd) as [Hin Hmax]. rewrite En.
  split; [assumption|]. split; [|assumption].
  eapply counted_disps_key; eassumption.
Qed.

(** X10: the display name of an entry is one of the display names counted
    under its name key (after the default "Unknown"), it normalizes to that
    key, and no display name counted under the key is longer. *)
Theorem coauthor_display_name (raw_works : list RawWork)
  (main_author_id : string) (top_n : Z) (x : Coauthor)
  (Hx : In x (fst (compute_coauthor_ranking_articles_only_merge_by_name
                     raw_works main_author_id top_n))) :
  let disps := counted_disps (_canonical_author_id main_author_id)
                 (article_authorships raw_works) in
  In (name_key x, name x) disps
  /\ normalize_person_name (name x) = name_key x
  /\ forall d, In (name_key x, d) disps ->
       (String.length d <= String.length (name x))%nat.
Proof.
  cbn [fst compute_coauthor_ranking_articles_only_merge_by_name] in Hx.
  apply slice_to_In in Hx.
  exact (coauthor_items_display_name raw_works main_author_id x Hx).
Qed.

Lemma coauthor_display_name_witness :
  normalize_person_name "J. Smith" = "j. smith".
Proof.
  exact (proj1 (proj2
    (coauthor_display_name [shared_article] "A1" 30
       {| name_key := "j. smith"; name := "J. Smith"; count := 2;
          author_id := Some "https://openalex.org/A2"; merged_ids := 2 |}
       (or_introl eq_refl)))).
Defined.

(** ** Strictness of the co-author order *)

Lemma coauthor_items_NoDup (raw_works : list RawWork)
  (main_author_id : string) :
  NoDup (map name_key (coauthor_items raw_works main_author_id)).
Proof.
  unfold coauthor_items.
  eapply Permutation_NoDup.
  - symmetry. apply Permutation_map, sort_desc_perm.
  - rewrite map_map. cbn [name_key make_item]. apply scan_works_NoDup.
Qed.

Lemma StronglySorted_strengthen {A} (R R' : A -> A -> Prop) (l : list A) :
  NoDup l ->
  (forall x y, In x l -> In y l -> x <> y -> R x y -> R' x y) ->
  StronglySorted R l -> StronglySorted R' l.
Proof.
  intros Hnd Himp Hs. induction Hs as [|a l Hs IH Ha]; [constructor|].
  inversion Hnd as [|? ? Hna Hnd']; subst. constructor.
  - apply IH; [assumption|]. intros x y Hx Hy. apply Himp; now right.
  - rewrite Forall_forall in *. intros y Hy.
    apply Himp; [now left|now right| |now apply Ha]. congruence.
Qed.

Lemma NoDup_map_through {A B C} (f : A -> B) (g : A -> C) (l : list A) :
  NoDup (map f l) ->
  (forall x y, In x l -> In y l -> g x = g y -> f x = f y) ->
  NoDup (map g l).
Proof.
  induction l as [|a l IH]; simpl; intros Hnd Hfg; [constructor|].
  inversion Hnd as [|? ? Hna Hnd']; subst. constructor.
  - rewrite in_map_iff. intros (b & Eb & Hb). apply Hna.
    rewrite in_map_iff. exists b. split; [|assumption].
    apply Hfg; auto.
  - apply IH; [assumption|]. intros x y Hx Hy. apply Hfg; now right.
Qed.

Lemma coauthor_items_strict (raw_works : list RawWork)
  (main_author_id : string) :
  StronglySorted coauthor_before (coauthor_items raw_works main_author_id).
Proof.
  pose proof (coauthor_items_NoDup raw_works main_author_id) as Hnd.
  apply (StronglySorted_strengthen (ge_key coauthor_key)).
  - eapply NoDup_map_inv. exact Hnd.
  - intros x y Hx Hy Hne Hge. apply ge_key_coauthor_precedes in Hge.
    destruct Hge as [Hlt|[Hc Hle]]; [now left|]. right.
    split; [assumption|].
    assert (Hn : name x <> name y).
    { intros En. apply Hne.
      apply (coauthor_items_unique raw_works main_author_id); try assumption.
      destruct (coauthor_items_display_name _ _ _ Hx) as (_ & Ex & _).
      destruct (coauthor_items_display_name _ _ _ Hy) as (_ & Ey & _).
      congruence. }
    unfold String.leb in Hle. unfold String.ltb.
    destruct (String.compare (name y) (name x)) eqn:Ec;
      [|reflexivity|discriminate].
    apply String.compare_eq_iff in Ec. congruence.
  - unfold coauthor_items. apply sort_desc_sorted.
Qed.

(** X11: no two entries of the co-author ranking share a name key or a
    display name, so the order leaves no tie: an entry standing before
    another has a greater count, or the same count and a strictly greater
    name; and every entry kept by the slice stands in that way before every
    entry it leaves out. *)
Theorem coauthor_ranking_strict (raw_works : list RawWork)
  (main_author_id : string) (top_n : Z) :
  let out := fst (compute_coauthor_ranking_articles_only_merge_by_name
                    raw_works main_author_id top_n) in
  NoDup (map name_key out)
  /\ NoDup (map name out)
  /\ (forall i j x y, (i < j)%nat ->
        nth_error out i = Some x -> nth_error out j = Some y ->
        coauthor_before x y)
  /\ exists rest,
       coauthor_items raw_works main_author_id = (out ++ rest)%list
       /\ forall x z, In x out -> In z rest -> coauthor_before x z.
Proof.
  cbn [fst compute_coauthor_ranking_articles_only_merge_by_name]. cbv zeta.
  pose proof (coauthor_items_strict raw_works main_author_id) as Hs.
  pose proof (coauthor_items_NoDup raw_works main_author_id) as Hnd.
  destruct (slice_to_prefix top_n (coauthor_items raw_works main_author_id))
    as [rest Er].
  set (out := slice_to top_n (coauthor_items raw_works main_author_id)) in *.
  assert (Hk : NoDup (map name_key out)).
  { rewrite Er, map_app in Hnd. eapply NoDup_app_remove_r. exact Hnd. }
  assert (Hso : StronglySorted coauthor_before out).
  { rewrite Er in Hs. eapply StronglySorted_app_l. exact Hs. }
  split; [exact Hk|]. split; [|split].
  - apply (NoDup_map_through name_key); [exact Hk|].
    intros x y Hx Hy En.
    destruct (coauthor_items_display_name raw_works main_author_id x
                (slice_to_In _ _ _ Hx)) as (_ & Ex & _).
    destruct (coauthor_items_display_name raw_works main_author_id y
                (slice_to_In _ _ _ Hy)) as (_ & Ey & _).
    congruence.
  - intros i j x y Hij Hi Hj. eapply StronglySorted_nth; eassumption.
  - exists rest. split; [exact Er|]. intros x z Hx Hz.
    eapply StronglySorted_app_cross; [|eassumption..].
    now rewrite <- Er.
Qed.

(** ** Pages of a fetch *)

Lemma flat_map_seq_shift {B} (f : nat -> list B) (m : nat) :
  flat_map f (seq 1 m) = flat_map (fun i => f (S i)) (seq 0 m).
Proof.
  rewrite <- seq_shift. induction (seq 0 m) as [|a l IH]; [reflexivity|].
  simpl. now rewrite IH.
Qed.

Lemma substring_length (m : nat) (s : string) :
  (String.length (substring 0 m s) <= m)%nat.
Proof.
  revert s. induction m as [|m IH]; intros [|c s]; simpl; try lia.
  specialize (IH s). lia.
Qed.

Lemma truthy_str_or (o : option string) (s d : string) :
  truthy o = Some s -> str_or o d = s.
Proof. unfold str_or. now intros ->. Qed.

Section Pages.
Variables (src : Source) (author : string) (per_page : Z).

Lemma fetch_loop_pages (fuel : nat) :
  forall n cursor works out,
    fetch_loop fuel src author per_page n cursor works = Returned out ->
    exists k,
      (k < fuel)%nat
      /\ out = (works
                ++ flat_map
                     (fun i => results (page_at src author per_page n cursor i))
                     (seq 0 (S k)))%list
      /\ (forall i, (i <= k)%nat ->
            status_code (page_at src author per_page n cursor i) = 200)
      /\ (forall i, (i < k)%nat ->
            truthy (next_cursor (page_at src author per_page n cursor i))
            <> None)
      /\ (truthy (next_cursor (page_at src author per_page n cursor k)) = None
          \/ 15000 < Z.of_nat (List.length out)).
Proof.
  induction fuel as [|fuel IH]; intros n cursor works out; [discriminate|].
  cbn [fetch_loop]. fold (request_of author per_page cursor).
  set (r := src n (request_of author per_page cursor)).
  destruct (Z.eqb_spec (status_code r) 200) as [Est|]; [|discriminate].
  cbn [negb]. destruct (truthy (next_cursor r)) as [next|] eqn:Ecur.
  - destruct (Z.ltb_spec 15000 (Z.of_nat (List.length (works ++ results r))))
      as [Hcap|Hcap].
    + intros [= <-]. exists O. split; [lia|]. simpl. fold r.
      rewrite app_nil_r. split; [reflexivity|]. split.
      * intros i Hi. replace i with O by lia. exact Est.
      * split; [intros i Hi; lia|now right].
    + intros Hrec. apply IH in Hrec.
      destruct Hrec as (k & Hk & Eout & Hst & Hnext & Hend).
      assert (Hshift : forall i,
                page_at src author per_page n cursor (S i)
                = page_at src author per_page (S n) next i).
      { intros i. cbn [page_at]. fold r.
        now rewrite (truthy_str_or _ _ _ Ecur). }
      exists (S k). split; [lia|]. split; [|split; [|split]].
      * rewrite Eout, <- app_assoc. f_equal.
        change (seq 0 (S (S k))) with (0%nat :: seq 1 (S k)).
        cbn [flat_map]. rewrite flat_map_seq_shift. f_equal.
        apply flat_map_ext. intros i. now rewrite Hshift.
      * intros [|i] Hi; [exact Est|]. rewrite Hshift. apply Hst. lia.
      * intros [|i] Hi; [simpl; fold r; congruence|].
        rewrite Hshift. apply Hnext. lia.
      * rewrite Hshift. exact Hend.
  - intros [= <-]. exists O. split; [lia|]. simpl. fold r.
    rewrite app_nil_r. split; [reflexivity|]. split.
    + intros i Hi. replace i with O by lia. exact Est.
    + split; [intros i Hi; lia|now left].
Qed.


Lemma fetch_loop_bound (p : Z) (fuel : nat) :
  (forall n rq, Z.of_nat (List.length (results (src n rq))) <= p) ->
  forall n cursor works out,
    Z.of_nat (List.length works) <= 15000 ->
    fetch_loop fuel src author per_page n cursor works = Returned out ->
    Z.of_nat (List.length out) <= 15000 + p.
Proof.
  intros Hp. induction fuel as [|fuel IH]; intros n cursor works out Hw;
    [discriminate|].
  cbn [fetch_loop]. set (r := src n _).
  pose proof (Hp n {| req_filter := "authorships.author.id:" ++ author;
                      req_per_page := per_page; req_cursor := cursor |})
    as Hr. fold r in Hr.
  destruct (negb (status_code r =? 200)); [discriminate|].
  assert (Hlen : Z.of_nat (List.length (works ++ results r)) <= 15000 + p)
    by (rewrite length_app; lia).
  destruct (truthy (next_cursor r)).
  - destruct (Z.ltb_spec 15000 (Z.of_nat (List.length (works ++ results r)))).
    + now intros [= <-].
    + now apply IH.
  - now intros [= <-].
Qed.

End Pages.

(** X12: what a fetch returns is the records of the pages it requested, in
    the order of the requests and with nothing dropped or repeated; every
    request after the first carries the cursor of the answer before, all
    those answers have status 200, and the last one either carries no cursor
    or brings the total above 15,000. *)
Theorem fetch_returns_pages_in_order (fuel : nat) (src : Source)
  (author_id : string) (per_page : Z) (out : list RawWork)
  (Hout : fetch_openalex_works fuel src author_id per_page = Returned out) :
  let page := page_at src (fetch_author author_id) per_page O "*" in
  exists k,
    (k < fuel)%nat
    /\ out = flat_map (fun i => results (page i)) (seq 0 (S k))
    /\ (forall i, (i <= k)%nat -> status_code (page i) = 200)
    /\ (forall i, (i < k)%nat -> truthy (next_cursor (page i)) <> None)
    /\ (truthy (next_cursor (page k)) = None
        \/ 15000 < Z.of_nat (List.length out)).
Proof.
  unfold fetch_openalex_works in Hout. fold (fetch_author author_id) in Hout.
  apply fetch_loop_pages in Hout. exact Hout.
Qed.

Lemma fetch_returns_pages_in_order_witness :
  exists k, (k < 3)%nat
            /\ [sample_raw]
               = flat_map
                   (fun i => results
                      (page_at one_page (fetch_author "A1") 200 O "*" i))
                   (seq 0 (S k)).
Proof.
  destruct (fetch_returns_pages_in_order 3 one_page "A1" 200 [sample_raw]
              eq_refl) as (k & Hk & E & _).
  exists k. split; [exact Hk | exact E].
Defined.



(** X14: when no page holds more than [p] records, a fetch returns at most
    [15,000 + p] records. *)
Theorem fetch_length_bound (fuel : nat) (src : Source) (author_id : string)
  (per_page p : Z) (out : list RawWork)
  (Hp : forall n rq, Z.of_nat (List.length (results (src n rq))) <= p)
  (Hout : fetch_openalex_works fuel src author_id per_page = Returned out) :
  Z.of_nat (List.length out) <= 15000 + p.
Proof.
  unfold fetch_openalex_works in Hout.
  eapply fetch_loop_bound; [exact Hp| |exact Hout]. simpl. lia.
Qed.

Lemma fetch_length_bound_witness :
  Z.of_nat (List.length [sample_raw]) <= 15000 + 1.
Proof.
  exact (fetch_length_bound 3 one_page "A1" 200 1 [sample_raw]
           ltac:(intros n rq; simpl; lia) eq_refl).
Defined.

(** ** Name keys *)

Lemma is_space_lower (c : ascii) : is_space (lower_ascii c) = is_space c.
Proof. destruct c as [[] [] [] [] [] [] [] []]; reflexivity. Qed.

Lemma lower_ascii_idem (c : ascii) :
  lower_ascii (lower_ascii c) = lower_ascii c.
Proof. destruct c as [[] [] [] [] [] [] [] []]; reflexivity. Qed.

Lemma lower_ascii_space (c : ascii) : is_space c = true -> lower_ascii c = c.
Proof.
  destruct c as [[] [] [] [] [] [] [] []]; intros E; try reflexivity;
    discriminate E.
Qed.

Lemma lower_idem (s : string) : lower (lower s) = lower s.
Proof.
  induction s as [|c s IH]; simpl; [reflexivity|].
  now rewrite lower_ascii_idem, IH.
Qed.

Lemma lstrip_lower (s : string) : lstrip (lower s) = lower (lstrip s).
Proof.
  induction s as [|c s IH]; simpl; [reflexivity|].
  rewrite is_space_lower. now destruct (is_space c).
Qed.

Lemma rstrip_lower (s : string) : rstrip (lower s) = lower (rstrip s).
Proof.
  induction s as [|c s IH]; simpl; [reflexivity|].
  rewrite IH, is_space_lower.
  destruct (rstrip s); simpl; [now destruct (is_space c)|reflexivity].
Qed.

Lemma strip_lower (s : string) : strip (lower s) = lower (strip s).
Proof. unfold strip. now rewrite lstrip_lower, rstrip_lower. Qed.

Lemma collapse_lower (b : bool) (s : string) :
  collapse_from b (lower s) = lower (collapse_from b s).
Proof.
  revert b. induction s as [|c s IH]; intros b; simpl; [reflexivity|].
  rewrite is_space_lower. destruct (is_space c) eqn:E.
  - destruct b; simpl; now rewrite IH.
  - simpl. now rewrite IH.
Qed.

Lemma rstrip_cons (c : ascii) (s : string) :
  is_space c = false -> rstrip (String c s) = String c (rstrip s).
Proof. intros E. simpl. rewrite E. now destruct (rstrip s). Qed.

Lemma rstrip_idem (s : string) : rstrip (rstrip s) = rstrip s.
Proof.
  induction s as [|c s IH]; [reflexivity|]. simpl.
  destruct (rstrip s) as [|d r] eqn:E.
  - destruct (is_space c) eqn:Ec; [reflexivity|]. simpl. now rewrite Ec.
  - cbn [rstrip]. cbn [rstrip] in IH. rewrite IH. reflexivity.
Qed.

Lemma rstrip_fixed_tail (c : ascii) (s : string) :
  rstrip (String c s) = String c s ->
  (s = "" /\ is_space c = false) \/ (s <> "" /\ rstrip s = s).
Proof.
  simpl. destruct (rstrip s) as [|d r] eqn:E.
  - destruct (is_space c); [discriminate|]. intros [= <-]. now left.
  - intros [= <-]. right. split; [discriminate|reflexivity].
Qed.

Lemma lstrip_idem (s : string) : lstrip (lstrip s) = lstrip s.
Proof.
  induction s as [|c s IH]; [reflexivity|]. simpl.
  destruct (is_space c) eqn:E; [exact IH|]. simpl. now rewrite E.
Qed.

Lemma lstrip_rstrip_lstrip (s : string) :
  lstrip (rstrip (lstrip s)) = rstrip (lstrip s).
Proof.
  induction s as [|c s IH]; [reflexivity|]. simpl.
  destruct (is_space c) eqn:E; [exact IH|].
  rewrite rstrip_cons by assumption. simpl. now rewrite E.
Qed.

Lemma strip_idem (s : string) : strip (strip s) = strip s.
Proof. unfold strip. now rewrite lstrip_rstrip_lstrip, rstrip_idem. Qed.

Lemma norm_from_nonempty (s : string) : norm_from true s = true -> s <> "".
Proof. destruct s; [discriminate|discriminate]. Qed.

Lemma collapse_norm (s : string) :
  forall b, rstrip s = s -> s <> "" ->
            norm_from b (collapse_from b s) = true.
Proof.
  induction s as [|c s IH]; intros b Hr Hne; [congruence|].
  apply rstrip_fixed_tail in Hr. simpl.
  destruct (is_space c) eqn:E.
  - destruct Hr as [[_ Hc]|[Hs Hr]]; [congruence|].
    destruct b; [now apply IH|]. simpl. now apply IH.
  - simpl. rewrite E. destruct Hr as [[-> _]|[Hs Hr]]; [reflexivity|].
    now apply IH.
Qed.

Lemma norm_lstrip (s : string) : norm_from true s = true -> lstrip s = s.
Proof.
  destruct s as [|c s]; [discriminate|]. simpl.
  now destruct (is_space c).
Qed.

Lemma norm_rstrip (s : string) :
  forall b, norm_from b s = true -> rstrip s = s.
Proof.
  induction s as [|c s IH]; intros b Hn; [reflexivity|].
  simpl in Hn. destruct (is_space c) eqn:E.
  - apply andb_true_iff in Hn. destruct Hn as [_ Hn].
    pose proof (norm_from_nonempty _ Hn) as Hne.
    simpl. rewrite (IH _ Hn). destruct s; [congruence|reflexivity].
  - rewrite rstrip_cons by assumption. now rewrite (IH _ Hn).
Qed.

Lemma norm_collapse (s : string) :
  forall b, norm_from b s = true -> collapse_from b s = s.
Proof.
  induction s as [|c s IH]; intros b Hn; [reflexivity|].
  simpl in *. destruct (is_space c) eqn:E.
  - apply andb_true_iff in Hn. destruct Hn as [Hn Hs].
    apply andb_true_iff in Hn. destruct Hn as [Hb Hc].
    destruct b; [discriminate|]. apply Ascii.eqb_eq in Hc. subst c.
    now rewrite (IH _ Hs).
  - now rewrite (IH _ Hn).
Qed.

Lemma norm_first (s : string) (b : bool) :
  lstrip s = s -> s <> "" -> norm_from b s = true -> norm_from true s = true.
Proof.
  destruct s as [|c s]; [congruence|]. simpl.
  destruct (is_space c) eqn:E; [|auto]. intros Hl _ _.
  exfalso. assert (Hlen : (String.length (lstrip s) <= String.length s)%nat).
  { clear. induction s as [|d s IH]; simpl; [lia|].
    destruct (is_space d); simpl; lia. }
  rewrite Hl in Hlen. simpl in Hlen. lia.
Qed.

Lemma collapse_first (s : string) :
  lstrip s = s -> lstrip (collapse_from false s) = collapse_from false s.
Proof.
  destruct s as [|c s]; [reflexivity|]. simpl.
  destruct (is_space c) eqn:E; [|simpl; now rewrite E]. intros Hl.
  exfalso. assert (Hlen : (String.length (lstrip s) <= String.length s)%nat).
  { clear. induction s as [|d s IH]; simpl; [lia|].
    destruct (is_space d); simpl; lia. }
  rewrite Hl in Hlen. simpl in Hlen. lia.
Qed.

Lemma collapse_nonempty (s : string) : s <> "" -> collapse_ws s <> "".
Proof.
  destruct s as [|c s]; [congruence|]. intros _. unfold collapse_ws. simpl.
  destruct (is_space c); discriminate.
Qed.

Lemma lower_nonempty (s : string) : s <> "" -> lower s <> "".
Proof. destruct s; [congruence|discriminate]. Qed.

Lemma norm_weaken (s : string) :
  norm_from true s = true -> norm_from false s = true.
Proof.
  destruct s as [|c s]; [discriminate|]. simpl.
  destruct (is_space c); [discriminate|auto].
Qed.

(** The key of a name whose stripped form is not empty is normalized. *)
Lemma normalize_norm (s : string) :
  strip s <> "" -> norm_from true (normalize_person_name s) = true.
Proof.
  intros Hs. unfold normalize_person_name.
  destruct (String.eqb_spec s "") as [->|_]; [now contradiction Hs|].
  set (u := lower (strip s)).
  assert (Hr : rstrip u = u).
  { unfold u, strip. now rewrite rstrip_lower, rstrip_idem. }
  assert (Hl : lstrip u = u).
  { unfold u, strip. now rewrite lstrip_lower, lstrip_rstrip_lstrip. }
  assert (Hne : u <> "") by now apply lower_nonempty.
  unfold collapse_ws.
  apply (norm_first _ false).
  - now apply collapse_first.
  - now apply collapse_nonempty.
  - now apply collapse_norm.
Qed.

(** X15: the name key is a fixed point: stripping, lower-casing or
    collapsing it changes nothing, so normalizing a key gives the key. *)
Theorem normalize_person_name_idempotent (name : string) :
  let key := normalize_person_name name in
  strip key = key
  /\ lower key = key
  /\ collapse_ws key = key
  /\ normalize_person_name key = key.
Proof.
  cbv zeta.
  destruct (String.eqb_spec (strip name) "") as [E|Hne].
  - assert (Ek : normalize_person_name name = "").
    { unfold normalize_person_name. destruct (String.eqb name "");
        [reflexivity|]. now rewrite E. }
    rewrite Ek. repeat split.
  - pose proof (normalize_norm name Hne) as Hn.
    set (key := normalize_person_name name) in *.
    assert (Hs : strip key = key).
    { unfold strip. now rewrite (norm_lstrip _ Hn), (norm_rstrip _ _ Hn). }
    assert (Hl : lower key = key).
    { unfold key, normalize_person_name.
      destruct (String.eqb name ""); [reflexivity|].
      unfold collapse_ws. now rewrite <- collapse_lower, lower_idem. }
    assert (Hc : collapse_ws key = key).
    { apply norm_collapse. now apply norm_weaken. }
    repeat split; try assumption.
    unfold normalize_person_name at 1.
    destruct (String.eqb_spec key "") as [E|_].
    + apply norm_from_nonempty in Hn. contradiction.
    + rewrite Hs, Hl. exact Hc.
Qed.

Lemma collapse_true_lstrip (s : string) :
  collapse_from true s = collapse_from false (lstrip s).
Proof.
  induction s as [|c s IH]; [reflexivity|]. simpl.
  destruct (is_space c) eqn:E; [exact IH|]. simpl. now rewrite E.
Qed.

Lemma lstrip_collapse (s : string) :
  lstrip (collapse_from false s) = collapse_from false (lstrip s).
Proof.
  destruct s as [|c s]; [reflexivity|]. simpl.
  destruct (is_space c) eqn:E.
  - cbn [lstrip]. change (is_space " "%char) with true. cbv iota.
    rewrite collapse_true_lstrip. apply collapse_first, lstrip_idem.
  - simpl. now rewrite E.
Qed.

Lemma collapse_space (b : bool) (c : ascii) (s : string) :
  is_space c = true ->
  collapse_from b (String c s)
  = if b then collapse_from true s else String " "%char (collapse_from true s).
Proof. intros E. simpl. now rewrite E. Qed.

Lemma rstrip_space (c : ascii) (s : string) :
  is_space c = true ->
  rstrip (String c s)
  = match rstrip s with
    | EmptyString => EmptyString
    | String d r => String c (String d r)
    end.
Proof. intros E. simpl. rewrite E. now destruct (rstrip s). Qed.

Lemma rstrip_collapse (s : string) :
  forall b, rstrip (collapse_from b s) = collapse_from b (rstrip s).
Proof.
  induction s as [|c s IH]; intros b; [reflexivity|].
  destruct (is_space c) eqn:E.
  - rewrite (rstrip_space c s E), (collapse_space b c s E).
    assert (Hidem : rstrip (rstrip s) = rstrip s) by apply rstrip_idem.
    destruct b.
    + rewrite IH. destruct (rstrip s) as [|d r]; [reflexivity|].
      now rewrite (collapse_space true c _ E).
    + rewrite (rstrip_space " "%char _ eq_refl), IH.
      destruct (rstrip s) as [|d r]; [reflexivity|].
      rewrite (collapse_space false c _ E).
      assert (Hne : collapse_from true (String d r) <> "").
      { apply norm_from_nonempty, collapse_norm; [exact Hidem|discriminate]. }
      destruct (collapse_from true (String d r)); [congruence|reflexivity].
  - rewrite rstrip_cons by assumption. cbn [collapse_from]. rewrite E.
    rewrite rstrip_cons by assumption. now rewrite IH.
Qed.

Lemma strip_collapse (s : string) :
  strip (collapse_ws s) = collapse_ws (strip s).
Proof.
  unfold strip, collapse_ws. now rewrite lstrip_collapse, rstrip_collapse.
Qed.

Lemma collapse_idem (s : string) :
  forall b, collapse_from b (collapse_from b s) = collapse_from b s.
Proof.
  induction s as [|c s IH]; intros b; [reflexivity|]. simpl.
  destruct (is_space c) eqn:E.
  - destruct b; [apply IH|]. cbn [collapse_from].
    change (is_space " "%char) with true. cbv iota. now rewrite IH.
  - simpl. rewrite E. now rewrite IH.
Qed.

(** X16: the name key does not depend on letter case, on white space around
    the name, or on how much white space separates its words: lower-casing,
    stripping or collapsing a name first gives the same key. *)
Theorem normalize_person_name_insensitive (name : string) :
  normalize_person_name (lower name) = normalize_person_name name
  /\ normalize_person_name (strip name) = normalize_person_name name
  /\ normalize_person_name (collapse_ws name) = normalize_person_name name.
Proof.
  unfold normalize_person_name. split; [|split].
  - destruct name as [|c s]; [reflexivity|].
    change (String.eqb (lower (String c s)) "") with false.
    change (String.eqb (String c s) "") with false. cbv iota.
    now rewrite strip_lower, lower_idem.
  - destruct (String.eqb_spec name "") as [->|Hn]; [reflexivity|].
    destruct (String.eqb_spec (strip name) "") as [E|_].
    + now rewrite E.
    + now rewrite strip_idem.
  - destruct (String.eqb_spec name "") as [->|Hn]; [reflexivity|].
    destruct (String.eqb_spec (collapse_ws name) "") as [E|_].
    + now apply collapse_nonempty in Hn.
    + rewrite strip_collapse. unfold collapse_ws.
      now rewrite <- collapse_lower, collapse_idem.
Qed.

(** ** Concept tags *)

Section ConceptFacts.
Context {F : Type} `{FloatOps F}.

Lemma score_concept_hit (cited : F) (scores : dict F) (c : Concept) :
  score_concept cited scores c
  = match concept_hit c with
    | Some n => apply_hit scores (n, cited)
    | None => scores
    end.
Proof.
  unfold score_concept, concept_hit.
  destruct (truthy (concept_name c)) as [n|]; [|reflexivity].
  now destruct (is_broad c).
Qed.

Lemma score_concepts_hits (cited : F) (l : list Concept) :
  forall scores,
    fold_left (score_concept cited) l scores
    = fold_left apply_hit (hits_of cited l) scores.
Proof.
  induction l as [|c l IH]; intros scores; [reflexivity|]. simpl.
  rewrite IH, score_concept_hit. now destruct (concept_hit c).
Qed.

Lemma score_works_hits (works : list ConceptWork) :
  forall scores,
    fold_left score_work works scores
    = fold_left apply_hit (all_hits works) scores.
Proof.
  induction works as [|w works IH]; intros scores; [reflexivity|].
  unfold all_hits in *. simpl. rewrite fold_left_app, IH.
  unfold score_work. fold (concepts_of w). fold (cited_of w).
  now rewrite score_concepts_hits.
Qed.

Lemma apply_hits_NoDup (hits : list (string * F)) :
  forall scores,
    NoDup (keys scores) -> NoDup (keys (fold_left apply_hit hits scores)).
Proof.
  induction hits as [|h hits IH]; intros scores Hnd; [assumption|].
  simpl. apply IH. unfold apply_hit. now apply NoDup_keys_dict_set.
Qed.

Lemma apply_hits_keys (hits : list (string * F)) :
  forall scores n,
    In n (keys (fold_left apply_hit hits scores))
    <-> In n (keys scores) \/ In n (map fst hits).
Proof.
  induction hits as [|h hits IH]; intros scores n; simpl; [tauto|].
  rewrite IH. unfold apply_hit. rewrite In_keys_dict_set.
  intuition congruence.
Qed.

Lemma apply_hits_get (hits : list (string * F)) :
  forall scores n,
    dict_get n (fold_left apply_hit hits scores)
    = match cites_of n hits with
      | [] => dict_get n scores
      | l => Some (fold_left bump l
                     (match dict_get n scores with
                      | Some s => s
                      | None => f_zero
                      end))
      end.
Proof.
  induction hits as [|[n' z] hits IH]; intros scores n; [reflexivity|].
  cbn [fold_left]. rewrite IH. unfold cites_of. cbn [filter fst].
  unfold apply_hit. cbn [fst snd].
  destruct (String.eqb_spec n' n) as [->|Hn].
  - rewrite dict_get_set_eq. cbn [map snd fold_left].
    now destruct (map snd (filter _ hits)).
  - now rewrite dict_get_set_neq.
Qed.

Lemma hits_of_In (cited : F) (l : list Concept) (n : string) :
  In n (map fst (hits_of cited l))
  -> exists c, In c l /\ concept_hit c = Some n.
Proof.
  induction l as [|c l IH]; simpl; [tauto|].
  destruct (concept_hit c) as [m|] eqn:E.
  - simpl. intros [<-|Hin]; [eauto|].
    destruct (IH Hin) as (c' & Hc & Eh). eauto.
  - intros Hin. destruct (IH Hin) as (c' & Hc & Eh). eauto.
Qed.

Lemma all_hits_In (works : list ConceptWork) (n : string) :
  In n (map fst (all_hits works))
  -> exists w c, In w works /\ In c (concepts_of w)
                 /\ concept_hit c = Some n.
Proof.
  unfold all_hits. rewrite flat_map_concat_map, concat_map, map_map.
  rewrite <- flat_map_concat_map. intros Hin. apply in_flat_map in Hin.
  destruct Hin as (w & Hw & Hn). apply hits_of_In in Hn.
  destruct Hn as (c & Hc & Eh). eauto.
Qed.

Lemma concept_hit_some (c : Concept) (n : string) :
  concept_hit c = Some n ->
  concept_name c = Some n /\ n <> "" /\ is_broad c = false.
Proof.
  unfold concept_hit.
  destruct (truthy (concept_name c)) as [m|] eqn:E; [|discriminate].
  destruct (is_broad c); [discriminate|]. intros [= ->].
  apply truthy_some in E. tauto.
Qed.

(** X17: the concept tags are distinct; each is the non-empty display name
    of a concept of a returned work that is not broad (no int level of 0 or
    1); for a non-negative [top_concepts] there are at most that many; and
    an answer of a status other than 200 gives no tag. *)
Theorem concept_tags_wellformed (client : ConceptRequest -> ConceptResponse)
  (author_id : string) (top_works top_concepts : Z) :
  let r := client (concept_request author_id top_works) in
  let tags := compute_author_concepts (F:=F) client author_id top_works
                top_concepts in
  NoDup tags
  /\ (forall t, In t tags ->
        t <> ""
        /\ cres_status r = 200
        /\ exists w c,
             In w (works_of r) /\ In c (concepts_of w)
             /\ concept_name c = Some t /\ is_broad c = false)
  /\ (0 <= top_concepts -> Z.of_nat (List.length tags) <= top_concepts)
  /\ (cres_status r <> 200 -> tags = []).
Proof.
  intros r tags. unfold compute_author_concepts in tags.
  fold (concept_request author_id top_works) in tags. fold r in tags.
  fold (works_of r) in tags.
  destruct (Z.eqb_spec (cres_status r) 200) as [Est|Est]; cbn [negb] in tags.
  2:{ subst tags. split; [constructor|]. split; [intros t []|].
      split; [intros Htop; simpl; lia|reflexivity]. }
  set (scores := fold_left score_work (works_of r) []) in *.
  assert (Hnd : NoDup (keys scores)).
  { unfold scores. rewrite score_works_hits. apply apply_hits_NoDup.
    constructor. }
  destruct (slice_to_prefix top_concepts (sort_desc snd scores))
    as [rest Er].
  assert (Hperm : Permutation (keys scores)
                    (tags ++ map fst rest)).
  { unfold tags, keys. rewrite <- map_app, <- Er.
    apply Permutation_map. symmetry. apply sort_desc_perm. }
  split; [|split; [|split]].
  - eapply NoDup_app_remove_r, Permutation_NoDup; eassumption.
  - intros t Ht.
    assert (Hk : In t (keys scores)).
    { eapply Permutation_in; [symmetry; exact Hperm|].
      apply in_or_app. now left. }
    unfold scores in Hk. rewrite score_works_hits in Hk.
    apply apply_hits_keys in Hk. destruct Hk as [[]|Hk].
    apply all_hits_In in Hk. destruct Hk as (w & c & Hw & Hc & Eh).
    apply concept_hit_some in Eh. destruct Eh as (En & Hne & Hb).
    split; [assumption|]. split; [assumption|]. exists w, c. auto.
  - intros Htop. unfold tags. rewrite length_map.
    rewrite slice_to_length by assumption. lia.
  - intros Hne. contradiction.
Qed.

(** X18: the concept tags come in descending order of accumulated score:
    the score of a tag is 0.0 increased, once for each of its scoring
    occurrences in the order of the works, by 1.0 and by 0.0005 times the
    citations of the work, and no tag has a smaller score than a tag that
    follows it. *)
Theorem concept_tags_by_score `{!OrdLaws F}
  (client : ConceptRequest -> ConceptResponse)
  (author_id : string) (top_works top_concepts : Z) :
  let r := client (concept_request author_id top_works) in
  let tags := compute_author_concepts (F:=F) client author_id top_works
                top_concepts in
  forall i j x y, (i < j)%nat ->
    nth_error tags i = Some x -> nth_error tags j = Some y ->
    cmp (accumulated (F:=F) x (all_hits (works_of r)))
        (accumulated (F:=F) y (all_hits (works_of r))) <> Lt.
Proof.
  intros r tags. unfold compute_author_concepts in tags.
  fold (concept_request author_id top_works) in tags. fold r in tags.
  fold (works_of r) in tags.
  destruct (negb (cres_status r =? 200)).
  { intros i j x y _ Hi. destruct i; discriminate. }
  set (scores := fold_left score_work (works_of r) []) in *.
  set (out := slice_to top_concepts (sort_desc snd scores)) in *.
  assert (Hnd : NoDup (keys scores)).
  { unfold scores. rewrite score_works_hits. apply apply_hits_NoDup.
    constructor. }
  assert (Hsc : forall p, In p out ->
                  snd p = accumulated (fst p) (all_hits (works_of r))).
  { intros [n s] Hp. apply slice_to_In, sort_desc_In in Hp.
    apply (In_dict_get _ _ _ Hnd) in Hp. unfold scores in Hp.
    rewrite score_works_hits, apply_hits_get in Hp. simpl in Hp.
    unfold accumulated. simpl.
    destruct (cites_of n (all_hits (works_of r))); [discriminate|].
    now injection Hp. }
  intros i j x y Hij Hi Hj. unfold tags in Hi, Hj.
  rewrite nth_error_map in Hi, Hj.
  destruct (nth_error out i) as [p|] eqn:Ep; [|discriminate].
  destruct (nth_error out j) as [q|] eqn:Eq; [|discriminate].
  injection Hi as <-. injection Hj as <-.
  rewrite <- (Hsc p (nth_error_In _ _ Ep)), <- (Hsc q (nth_error_In _ _ Eq)).
  assert (Hs : StronglySorted (ge_key snd) out)
    by apply slice_to_sorted, sort_desc_sorted.
  exact (StronglySorted_nth _ _ Hs i j p q Hij Ep Eq).
Qed.

End ConceptFacts.

Lemma concept_tags_by_score_witness :
  cmp (accumulated (F:=Q) "Ecology"
         (all_hits (works_of (sample_concept_client
                                (concept_request "A1" 20)))))
      (accumulated (F:=Q) "Reaction-diffusion"
         (all_hits (works_of (sample_concept_client
                                (concept_request "A1" 20)))))
  <> Lt.
Proof.
  exact (concept_tags_by_score (F:=Q) sample_concept_client "A1" 20 3
           0%nat 1%nat "Ecology" "Reaction-diffusion"
           ltac:(lia) eq_refl eq_refl).
Defined.

(** ** URL prefixes *)

Lemma prefix_self_app (p s : string) : String.prefix p (p ++ s) = true.
Proof.
  induction p as [|c p IH]; simpl; [now destruct s|].
  destruct (ascii_dec c c); [exact IH|congruence].
Qed.

Lemma remove_skip (a old s : string) :
  remove_from (String.length a) old (a ++ s) = remove_from O old s.
Proof. induction a as [|c a IH]; simpl; [reflexivity|exact IH]. Qed.

Lemma remove_absent (old s : string) :
  occurs_inb old s = false -> remove_from O old s = s.
Proof.
  induction s as [|c s IH]; [reflexivity|].
  cbn [occurs_inb]. intros Hn. apply orb_false_iff in Hn.
  destruct Hn as [Hp Hs]. cbn [remove_from]. rewrite Hp.
  now rewrite (IH Hs).
Qed.

Lemma str_remove_prefix (old s : string) :
  old <> "" -> str_remove old (old ++ s) = str_remove old s.
Proof.
  intros Hne. unfold str_remove.
  destruct (String.eqb_spec old "") as [|_]; [contradiction|].
  destruct old as [|c o]; [contradiction|].
  change (String c o ++ s)%string with (String c (o ++ s)).
  cbn [remove_from].
  change (String c (o ++ s)) with (String c o ++ s)%string.
  rewrite prefix_self_app. cbn [String.length].
  rewrite Nat.sub_1_r. cbn [Nat.pred]. apply remove_skip.
Qed.

(** X19: the "doi" and "orcid" entries are [None] exactly when the field
    is missing or empty; a value made of the URL prefix and a bare
    identifier in which the prefix does not occur is reduced to that
    identifier, and such a bare identifier given as it is stays
    unchanged. *)
Theorem strip_url_prefix_bare (prefix bare : string)
  (Hp : prefix <> "") (Hb : bare <> "")
  (Hn : occurs_inb prefix bare = false) :
  strip_url_prefix prefix (Some (prefix ++ bare)) = Some bare
  /\ strip_url_prefix prefix (Some bare) = Some bare
  /\ (forall o, strip_url_prefix prefix o = None <-> truthy o = None).
Proof.
  assert (Hr : str_remove prefix bare = bare).
  { unfold str_remove. destruct (String.eqb prefix ""); [reflexivity|].
    now apply remove_absent. }
  split; [|split].
  - unfold strip_url_prefix, truthy.
    destruct (String.eqb_spec (prefix ++ bare) "") as [E|_].
    + destruct prefix; [contradiction|discriminate].
    + now rewrite str_remove_prefix, Hr.
  - unfold strip_url_prefix, truthy.
    destruct (String.eqb_spec bare "") as [|_]; [contradiction|].
    now rewrite Hr.
  - intros o. unfold strip_url_prefix.
    destruct (truthy o); split; congruence.
Qed.

Lemma strip_url_prefix_bare_witness :
  strip_url_prefix DOI_PREFIX (Some "https://doi.org/10.1000/182")
  = Some "10.1000/182"
  /\ strip_url_prefix ORCID_PREFIX (Some "0000-0002-1825-0097")
     = Some "0000-0002-1825-0097".
Proof.
  split.
  - exact (proj1 (strip_url_prefix_bare DOI_PREFIX "10.1000/182"
                    ltac:(discriminate) ltac:(discriminate) eq_refl)).
  - exact (proj1 (proj2 (strip_url_prefix_bare ORCID_PREFIX
                    "0000-0002-1825-0097"
                    ltac:(discriminate) ltac:(discriminate) eq_refl))).
Defined.

(** ** Author search *)

Lemma attach_concepts_spec (out : list Candidate) :
  forall concepts_list,
    (List.length (task_ids out) <= List.length concepts_list)%nat ->
    exists l,
      attach_concepts out concepts_list = Some l
      /\ map (fun i => with_concepts i []) l
         = map (fun i => with_concepts i []) out
      /\ map cand_concepts (filter has_id l)
         = map tags_of (firstn (List.length (task_ids out)) concepts_list)
      /\ (Forall (fun i => cand_concepts i = []) out ->
          Forall (fun i => has_id i = false -> cand_concepts i = []) l).
Proof.
  induction out as [|item out IH]; intros cl Hlen.
  - exists []. repeat split; constructor.
  - cbn [attach_concepts task_ids] in *.
    destruct (truthy (cand_id item)) as [i|] eqn:Ei.
    + destruct cl as [|c rest]; [simpl in Hlen; lia|].
      destruct (IH rest) as (l & El & Hf & Hc & Hn);
        [simpl in Hlen; lia|].
      rewrite El. eexists. split; [reflexivity|]. split; [|split].
      * cbn [map]. now rewrite Hf.
      * cbn [filter]. unfold has_id at 1. cbn [with_concepts cand_id].
        rewrite Ei. cbn [map List.length firstn cand_concepts].
        fold (tags_of c). now rewrite Hc.
      * intros Ho. inversion Ho; subst. constructor; [|now apply Hn].
        unfold has_id. cbn [with_concepts cand_id]. rewrite Ei. discriminate.
    + destruct (IH cl Hlen) as (l & El & Hf & Hc & Hn).
      rewrite El. eexists. split; [reflexivity|]. split; [|split].
      * cbn [map]. now rewrite Hf.
      * cbn [filter]. unfold has_id at 1. rewrite Ei. exact Hc.
      * intros Ho. inversion Ho; subst. constructor; [auto|now apply Hn].
Qed.

Section SearchFacts.
Context {F : Type} `{FloatOps F}.

Lemma run_tasks_length
  (transport : nat -> ConceptRequest -> option ConceptResponse)
  (ids : list string) :
  forall k, List.length (run_tasks (F:=F) transport k ids) = List.length ids.
Proof.
  induction ids as [|i ids IH]; intros k; simpl; [reflexivity|].
  now rewrite IH.
Qed.

Lemma run_tasks_nth
  (transport : nat -> ConceptRequest -> option ConceptResponse)
  (ids : list string) :
  forall k j,
    nth_error (run_tasks (F:=F) transport k ids) j
    = option_map (run_task (F:=F) (transport (k + j)%nat)) (nth_error ids j).
Proof.
  induction ids as [|i ids IH]; intros k j.
  - now destruct j.
  - destruct j as [|j]; simpl.
    + now rewrite Nat.add_0_r.
    + rewrite IH. now rewrite Nat.add_succ_r.
Qed.

Lemma task_ids_filter (out : list Candidate) :
  map Some (task_ids out) = map (fun i => truthy (cand_id i))
                              (filter has_id out).
Proof.
  induction out as [|item out IH]; [reflexivity|].
  cbn [task_ids filter]. unfold has_id at 1.
  destruct (truthy (cand_id item)) eqn:E; cbn [map]; [|exact IH].
  now rewrite IH, E.
Qed.

(** X20: a search whose answer has status 200 always returns (the index
    of the last loop never runs out of results), with one candidate per
    author record, in the same order and with the fields of its own record;
    any other status raises the gateway error 502 with that status and at
    most 200 characters of text. *)
Theorem search_keeps_records
  (search : SearchRequest -> SearchResponse)
  (transport : nat -> ConceptRequest -> option ConceptResponse)
  (name : string) (per_page : Z) :
  let r := search {| sreq_search := name; sreq_per_page := per_page |} in
  let res := search_openalex_authors (F:=F) search transport name per_page in
  (sres_status r = 200 ->
   exists out,
     res = Returned out
     /\ map (fun i => with_concepts i []) out
        = map candidate_of (sres_results r))
  /\ (sres_status r <> 200 ->
      exists detail,
        res = Raised 502 (sres_status r) detail
        /\ (String.length detail <= 200)%nat).
Proof.
  intros r res. unfold search_openalex_authors in res. fold r in res.
  split; intros Hst.
  - subst res. rewrite Hst. cbn [Z.eqb Pos.eqb negb].
    set (out := map candidate_of (sres_results r)).
    destruct (attach_concepts_spec out (run_tasks transport 0 (task_ids out)))
      as (l & El & Hf & _); [rewrite run_tasks_length; lia|].
    rewrite El. exists l. split; [reflexivity|]. rewrite Hf. unfold out.
    rewrite map_map. apply map_ext. intros a. reflexivity.
  - subst res. destruct (Z.eqb_spec (sres_status r) 200); [contradiction|].
    eexists. split; [reflexivity|]. apply substring_length.
Qed.

(** X21: in the result of a search every candidate without an identifier
    has no concept tag, and the [j]-th candidate that has one carries the
    tags of its own task, the [j]-th: those computed from the answer to its
    request, or none when that request failed. *)
Theorem search_joins_by_position
  (search : SearchRequest -> SearchResponse)
  (transport : nat -> ConceptRequest -> option ConceptResponse)
  (name : string) (per_page : Z) (out : list Candidate)
  (Hres : search_openalex_authors (F:=F) search transport name per_page
          = Returned out) :
  (forall item, In item out -> has_id item = false -> cand_concepts item = [])
  /\ forall j item i,
       nth_error (filter has_id out) j = Some item ->
       truthy (cand_id item) = Some i ->
       cand_concepts item
       = match transport j (concept_request i 20) with
         | None => []
         | Some r =>
             compute_author_concepts (F:=F) (fun _ => r) i 20 3
         end.
Proof.
  unfold search_openalex_authors in Hres.
  set (r := search _) in Hres.
  destruct (negb (sres_status r =? 200)); [discriminate|].
  set (cands := map candidate_of (sres_results r)) in *.
  destruct (attach_concepts_spec cands
              (run_tasks transport 0 (task_ids cands)))
    as (l & El & Hf & Hc & Hn); [rewrite run_tasks_length; lia|].
  rewrite El in Hres. injection Hres as <-.
  rewrite <- (run_tasks_length transport (task_ids cands) 0) in Hc.
  rewrite firstn_all in Hc. split.
  - assert (Hall : Forall (fun i => cand_concepts i = []) cands).
    { unfold cands. apply Forall_forall. intros i Hi.
      apply in_map_iff in Hi. now destruct Hi as (a & <- & _). }
    specialize (Hn Hall). rewrite Forall_forall in Hn. exact Hn.
  - intros j item i Hj Hi.
    assert (Hids : map Some (task_ids cands)
                   = map (fun i => truthy (cand_id i)) (filter has_id l)).
    { rewrite task_ids_filter.
      assert (E : forall l', map (fun i => truthy (cand_id i))
                               (filter has_id l')
                             = map (fun i => truthy (cand_id i))
                                 (filter has_id
                                    (map (fun i => with_concepts i []) l'))).
      { clear. induction l' as [|a l' IH]; [reflexivity|].
        cbn [map filter].
        change (has_id (with_concepts a [])) with (has_id a).
        destruct (has_id a); cbn [map]; [|exact IH].
        f_equal. exact IH. }
      rewrite (E cands), (E l), Hf. reflexivity. }
    assert (Hid : nth_error (task_ids cands) j = Some i).
    { apply (f_equal (fun x => nth_error x j)) in Hids.
      rewrite !nth_error_map, Hj in Hids. cbn [option_map] in Hids.
      rewrite Hi in Hids.
      destruct (nth_error (task_ids cands) j); [|discriminate].
      cbn [option_map] in Hids. congruence. }
    apply (f_equal (fun x => nth_error x j)) in Hc.
    rewrite !nth_error_map, Hj, run_tasks_nth, Hid in Hc.
    cbn [option_map Nat.add] in Hc. injection Hc as ->.
    unfold run_task. now destruct (transport j (concept_request i 20)).
Qed.

End SearchFacts.

Lemma search_joins_by_position_witness :
  ["Ecology"; "Reaction-diffusion"]
  = match sample_transport 1
            (concept_request "https://openalex.org/A3" 20) with
    | None => []
    | Some r =>
        compute_author_concepts (F:=Q) (fun _ => r)
          "https://openalex.org/A3" 20 3
    end.
Proof.
  exact (proj2 (search_joins_by_position (F:=Q) sample_search
                  sample_transport "ada" 8
                  [with_concepts
                     (candidate_of
                        (sample_author (Some "https://openalex.org/A1")
                           "Ada")) [];
                   candidate_of (sample_author None "Bob");
                   with_concepts
                     (candidate_of
                        (sample_author (Some "https://openalex.org/A3")
                           "Cy")) ["Ecology"; "Reaction-diffusion"]]
                  eq_refl)
           1%nat _ "https://openalex.org/A3" eq_refl eq_refl).
Defined.

(** ** Completeness of a fetch *)

Lemma fetch_loop_complete (src : Source) (author : string) (per_page : Z)
  (k : nat) :
  forall fuel n cursor works,
    let page := page_at src author per_page n cursor in
    (k < fuel)%nat ->
    (forall i, (i <= k)%nat -> status_code (page i) = 200) ->
    (forall i, (i < k)%nat -> truthy (next_cursor (page i)) <> None) ->
    truthy (next_cursor (page k)) = None ->
    (forall i, (i < k)%nat ->
       Z.of_nat (List.length
                   (works ++ flat_map (fun j => results (page j))
                               (seq 0 (S i)))) <= 15000) ->
    fetch_loop fuel src author per_page n cursor works
    = Returned (works ++ flat_map (fun j => results (page j))
                           (seq 0 (S k)))%list.
Proof.
  induction k as [|k IH]; intros fuel n cursor works page Hfuel Hst Hcur
    Hend Hcap; (destruct fuel as [|fuel]; [lia|]);
    cbn [fetch_loop]; fold (request_of author per_page cursor);
    pose proof (Hst O ltac:(lia)) as H0; unfold page in H0;
    cbn [page_at] in H0; rewrite H0; cbn [Z.eqb Pos.eqb negb].
  - unfold page in Hend. cbn [page_at] in Hend. rewrite Hend.
    unfold page. simpl. now rewrite app_nil_r.
  - set (r := src n (request_of author per_page cursor)) in *.
    pose proof (Hcur O ltac:(lia)) as Hc0. unfold page in Hc0.
    cbn [page_at] in Hc0. fold r in Hc0.
    destruct (truthy (next_cursor r)) as [next|] eqn:Ecur; [|congruence].
    assert (Hshift : forall i, page (S i)
                       = page_at src author per_page (S n) next i).
    { intros i. unfold page. cbn [page_at]. fold r.
      now rewrite (truthy_str_or _ _ _ Ecur). }
    pose proof (Hcap O ltac:(lia)) as Hcap0. unfold page in Hcap0.
    simpl in Hcap0. fold r in Hcap0. rewrite app_nil_r in Hcap0.
    destruct (Z.ltb_spec 15000 (Z.of_nat (List.length (works ++ results r))));
      [lia|].
    rewrite (IH fuel (S n) next (works ++ results r)%list).
    + f_equal. rewrite <- app_assoc. f_equal.
      change (seq 0 (S (S k))) with (0%nat :: seq 1 (S k)).
      cbn [flat_map]. unfold page at 1. cbn [page_at]. fold r. f_equal.
      rewrite flat_map_seq_shift. apply flat_map_ext. intros i.
      now rewrite Hshift.
    + lia.
    + intros i Hi. rewrite <- Hshift. apply Hst. lia.
    + intros i Hi. rewrite <- Hshift. apply Hcur. lia.
    + rewrite <- Hshift. exact Hend.
    + intros i Hi. specialize (Hcap (S i) ltac:(lia)).
      change (seq 0 (S (S i))) with (0%nat :: seq 1 (S i)) in Hcap.
      cbn [flat_map] in Hcap. unfold page at 1 in Hcap.
      cbn [page_at] in Hcap. fold r in Hcap.
      rewrite flat_map_seq_shift in Hcap. rewrite <- app_assoc.
      erewrite flat_map_ext; [exact Hcap|].
      intros j. simpl. now rewrite <- Hshift.
Qed.

(** X22: a source that is exhausted below the cap is fetched completely:
    when the answers up to the [k]-th have status 200, the [k]-th is the
    first without a cursor, and the records before it never exceed 15,000,
    the fetch returns, for any budget above [k] requests, the records of the
    pages [0..k] in order. *)
Theorem fetch_complete_below_cap (src : Source) (author_id : string)
  (per_page : Z) (k fuel : nat)
  (Hfuel : (k < fuel)%nat)
  (Hst : forall i, (i <= k)%nat ->
     status_code (page_at src (fetch_author author_id) per_page O "*" i)
     = 200)
  (Hcur : forall i, (i < k)%nat ->
     truthy (next_cursor
               (page_at src (fetch_author author_id) per_page O "*" i))
     <> None)
  (Hend : truthy (next_cursor
                    (page_at src (fetch_author author_id) per_page O "*" k))
          = None)
  (Hcap : forall i, (i < k)%nat ->
     Z.of_nat (List.length
       (flat_map
          (fun j => results
             (page_at src (fetch_author author_id) per_page O "*" j))
          (seq 0 (S i)))) <= 15000) :
  fetch_openalex_works fuel src author_id per_page
  = Returned
      (flat_map
         (fun j => results
            (page_at src (fetch_author author_id) per_page O "*" j))
         (seq 0 (S k))).
Proof.
  unfold fetch_openalex_works. fold (fetch_author author_id).
  now rewrite (fetch_loop_complete src (fetch_author author_id) per_page k
                 fuel O "*" [] Hfuel Hst Hcur Hend Hcap).
Qed.

Lemma fetch_complete_below_cap_witness :
  fetch_openalex_works 1 one_page "A1" 200
  = Returned
      (flat_map
         (fun j => results (page_at one_page (fetch_author "A1") 200 O "*" j))
         (seq 0 1)).
Proof.
  exact (fetch_complete_below_cap one_page "A1" 200 0 1 ltac:(lia)
           ltac:(intros i Hi; destruct i; [reflexivity|lia])
           ltac:(intros i Hi; lia) eq_refl ltac:(intros i Hi; lia)).
Defined.

(** ** Stability of the paper ranking *)

(** X23: the paper ranking breaks no tie by chance: the entries that agree
    with a given one on rate, citations, year and title stand in the
    ranking (continued by what the slice leaves out) in the order in which
    their works were given. *)
Theorem compute_rate_ranking_stable (now : Z) (works : list Work)
  (top_n : Z) :
  exists out rest rated,
    compute_rate_ranking now works top_n = Some out
    /\ rate_works now works = Some rated
    /\ map r_work rated = filter work_has_year works
    /\ Permutation (out ++ rest) rated
    /\ forall x,
         filter (same_rank x) (out ++ rest) = filter (same_rank x) rated.
Proof.
  destruct (rate_works_total now works) as (rated & E & Hm & _).
  unfold compute_rate_ranking. rewrite E.
  destruct (slice_to_prefix top_n (sort_desc rate_key rated)) as [rest Er].
  exists (slice_to top_n (sort_desc rate_key rated)), rest, rated.
  split; [reflexivity|]. split; [reflexivity|]. split; [exact Hm|].
  rewrite <- Er. split; [apply sort_desc_perm|].
  intros x. unfold same_rank. apply (sort_desc_stable rate_key (rate_key x)).
Qed.

(** ** Order of the works *)

Lemma Permutation_filter' {A} (p : A -> bool) (l l' : list A) :
  Permutation l l' -> Permutation (filter p l) (filter p l').
Proof.
  induction 1 as [|a l l' _ IH|a b l|l1 l2 l3 _ IH1 _ IH2]; simpl.
  - constructor.
  - destruct (p a); [now constructor|assumption].
  - destruct (p a), (p b); try reflexivity. apply perm_swap.
  - now transitivity (filter p l2).
Qed.

Lemma Permutation_flat_map' {A B} (f : A -> list B) (l l' : list A) :
  Permutation l l' -> Permutation (flat_map f l) (flat_map f l').
Proof.
  induction 1 as [|a l l' _ IH|a b l|l1 l2 l3 _ IH1 _ IH2]; simpl.
  - constructor.
  - now apply Permutation_app_head.
  - rewrite !app_assoc. apply Permutation_app_tail, Permutation_app_comm.
  - now transitivity (flat_map f l2).
Qed.

Lemma article_authorships_perm (raw raw' : list RawWork) :
  Permutation raw raw' ->
  Permutation (article_authorships raw) (article_authorships raw').
Proof.
  intros Hp. unfold article_authorships, all_authorships.
  now apply Permutation_flat_map', Permutation_filter'.
Qed.

Lemma counted_pairs_In_inv (main_id : string) (l : list Authorship)
  (p : string * string) :
  In p (counted_pairs main_id l) ->
  exists a, In a l /\ counted_pair main_id a = Some p.
Proof.
  induction l as [|b l IH]; simpl; [tauto|].
  destruct (counted_pair main_id b) as [q|] eqn:E.
  - intros [<-|Hin]; [eauto|]. destruct (IH Hin) as (a & Ha & Ea). eauto.
  - intros Hin. destruct (IH Hin) as (a & Ha & Ea). eauto.
Qed.

Lemma counted_disps_In_inv (main_id : string) (l : list Authorship)
  (p : string * string) :
  In p (counted_disps main_id l) ->
  exists a, In a l /\ counted_disp main_id a = Some p.
Proof.
  induction l as [|b l IH]; simpl; [tauto|].
  destruct (counted_disp main_id b) as [q|] eqn:E.
  - intros [<-|Hin]; [eauto|]. destruct (IH Hin) as (a & Ha & Ea). eauto.
  - intros Hin. destruct (IH Hin) as (a & Ha & Ea). eauto.
Qed.

Lemma coauthor_items_display (raw_works : list RawWork)
  (main_author_id : string) (x : Coauthor) :
  In x (coauthor_items raw_works main_author_id) ->
  let disps := counted_disps (_canonical_author_id main_author_id)
                 (article_authorships raw_works) in
  In (name_key x, name x) disps
  /\ forall d, In (name_key x, d) disps ->
       (String.length d <= String.length (name x))%nat.
Proof.
  intros Hx.
  destruct (coauthor_items_display_name _ _ _ Hx) as (H1 & _ & H3).
  split; assumption.
Qed.

(** X24: the order in which the works arrive changes no aggregate: for a
    permutation of the works, every entry of the co-author ranking before
    the slice has a counterpart with the same name key, the same count, the
    same number of merged identifiers and a display name of the same
    length, and there are as many entries. *)
Theorem coauthor_items_order_free (raw raw' : list RawWork)
  (main_author_id : string) (Hp : Permutation raw raw') :
  List.length (coauthor_items raw main_author_id)
  = List.length (coauthor_items raw' main_author_id)
  /\ forall x, In x (coauthor_items raw main_author_id) ->
       exists x',
         In x' (coauthor_items raw' main_author_id)
         /\ name_key x' = name_key x
         /\ count x' = count x
         /\ merged_ids x' = merged_ids x
         /\ String.length (name x') = String.length (name x).
Proof.
  set (m := _canonical_author_id main_author_id).
  pose proof (article_authorships_perm raw raw' Hp) as Ha.
  assert (Hex : forall r r' x,
            Permutation (article_authorships r) (article_authorships r') ->
            In x (coauthor_items r main_author_id) ->
            exists x', In x' (coauthor_items r' main_author_id)
                       /\ name_key x' = name_key x).
  { intros r r' x Hperm Hx.
    destruct (coauthor_items_counted _ _ _ Hx) as (a & Hin & Hk).
    apply (coauthor_items_present r' main_author_id a); [|exact Hk].
    eapply Permutation_in; eassumption. }
  split.
  - rewrite <- (length_map name_key (coauthor_items raw main_author_id)),
      <- (length_map name_key (coauthor_items raw' main_author_id)).
    apply Permutation_length, NoDup_Permutation;
      try apply coauthor_items_NoDup.
    intros k. rewrite !in_map_iff. split; intros (x & <- & Hx).
    + destruct (Hex raw raw' x Ha Hx) as (x' & Hx' & Ek). eauto.
    + destruct (Hex raw' raw x (Permutation_sym Ha) Hx) as (x' & Hx' & Ek).
      eauto.
  - intros x Hx. destruct (Hex raw raw' x Ha Hx) as (x' & Hx' & Ek).
    exists x'. split; [assumption|]. split; [assumption|].
    split; [|split].
    + rewrite (coauthor_items_count _ _ _ Hx),
        (coauthor_items_count _ _ _ Hx'), Ek.
      symmetry. apply Permutation_length, Permutation_filter', Ha.
    + destruct (coauthor_items_merged_ids _ _ _ Hx)
        as (ids & -> & Hnd & Hiff).
      destruct (coauthor_items_merged_ids _ _ _ Hx')
        as (ids' & -> & Hnd' & Hiff').
      apply Permutation_length, NoDup_Permutation; try assumption.
      intros aid. rewrite Hiff, Hiff', Ek. fold m.
      split; intros Hin; apply counted_pairs_In_inv in Hin;
        destruct Hin as (a & Hin & Ea);
        (eapply counted_pairs_In; [|exact Ea]);
        eapply Permutation_in; try eassumption.
      now apply Permutation_sym.
    + destruct (coauthor_items_display _ _ _ Hx) as [Hd Hmax].
      destruct (coauthor_items_display _ _ _ Hx') as [Hd' Hmax'].
      fold m in Hd, Hmax, Hd', Hmax'.
      assert (T : forall r r' p,
                Permutation (article_authorships r) (article_authorships r')
                -> In p (counted_disps m (article_authorships r))
                -> In p (counted_disps m (article_authorships r'))).
      { intros r r' p Hperm Hin. apply counted_disps_In_inv in Hin.
        destruct Hin as (a & Hin & Ea).
        eapply counted_disps_In; [|exact Ea].
        eapply Permutation_in; eassumption. }
      apply Nat.le_antisymm.
      * apply Hmax. rewrite <- Ek. apply (T raw' raw); [|exact Hd'].
        now apply Permutation_sym.
      * apply Hmax'. rewrite Ek. now apply (T raw raw').
Qed.

Lemma coauthor_items_order_free_witness :
  List.length (coauthor_items [shared_article; two_coauthors] "A1")
  = List.length (coauthor_items [two_coauthors; shared_article] "A1").
Proof.
  exact (proj1 (coauthor_items_order_free
                  [shared_article; two_coauthors]
                  [two_coauthors; shared_article] "A1"
                  (perm_swap _ _ _))).
Defined.

(** ** Type tags and author strings *)

Lemma str_or_empty (o : option string) :
  str_or o "" = match o with Some s => s | None => "" end.
Proof.
  unfold str_or, truthy. destruct o as [s|]; [|reflexivity].
  destruct (String.eqb_spec s ""); congruence.
Qed.

(** X25: whether a work is a published article does not depend on the
    letter case of its type tag nor on white space around it, and a work
    without a type is not one. *)
Theorem is_published_article_insensitive (w w' : RawWork) (t : string)
  (Hw : work_type w = Some t)
  (Hw' : work_type w' = Some (lower t) \/ work_type w' = Some (strip t)) :
  is_published_article w' = is_published_article w
  /\ forall w0, work_type w0 = None -> is_published_article w0 = false.
Proof.
  split.
  - unfold is_published_article. rewrite !str_or_empty, Hw.
    destruct Hw' as [-> | ->].
    + now rewrite lower_idem.
    + now rewrite <- strip_lower, strip_idem.
  - intros w0 E. unfold is_published_article. now rewrite str_or_empty, E.
Qed.

Lemma is_published_article_insensitive_witness :
  is_published_article
    {| raw_id := None; raw_title := None; publication_year := None;
       cited_by_count := None; work_type := Some (strip " Article ");
       authorships := None |}
  = is_published_article
      {| raw_id := None; raw_title := None; publication_year := None;
         cited_by_count := None; work_type := Some " Article ";
         authorships := None |}.
Proof.
  exact (proj1 (is_published_article_insensitive
                  {| raw_id := None; raw_title := None;
                     publication_year := None; cited_by_count := None;
                     work_type := Some " Article "; authorships := None |}
                  {| raw_id := None; raw_title := None;
                     publication_year := None; cited_by_count := None;
                     work_type := Some (strip " Article ");
                     authorships := None |}
                  " Article " eq_refl (or_intror eq_refl))).
Defined.

Lemma str_app_empty (a b : string) : (a ++ b)%string = "" -> b = "".
Proof. destruct a; [auto|discriminate]. Qed.

Lemma author_names_nonempty (l : list Authorship) :
  Forall (fun n => n <> "") (author_names l).
Proof.
  induction l as [|a l IH]; simpl; [constructor|].
  destruct (truthy (au_display_name (author_of a))) as [n|] eqn:E;
    [|assumption].
  constructor; [|assumption]. apply truthy_some in E. tauto.
Qed.

Lemma author_names_nil (l : list Authorship) :
  author_names l = []
  <-> Forall (fun a => truthy (au_display_name (author_of a)) = None) l.
Proof.
  induction l as [|a l IH]; simpl; [split; constructor|].
  destruct (truthy (au_display_name (author_of a))) eqn:E; split.
  - discriminate.
  - intros Hf. inversion Hf; subst. congruence.
  - intros Hn. constructor; [exact E|]. now apply IH.
  - intros Hf. inversion Hf; subst. now apply IH.
Qed.

(** X26: whatever the display cap, the author string of a work is empty
    exactly when none of its authorships has a display name that is present
    and not empty. *)
Theorem extract_authors_list_empty (raw_work : RawWork) (max_authors : Z) :
  extract_authors_list raw_work max_authors = ""
  <-> Forall (fun a => truthy (au_display_name (author_of a)) = None)
        (authorships_of raw_work).
Proof.
  rewrite <- author_names_nil. unfold extract_authors_list.
  pose proof (author_names_nonempty (authorships_of raw_work)) as Hne.
  destruct (author_names (authorships_of raw_work)) as [|n names] eqn:E;
    [tauto|].
  split; [|discriminate]. intros Hs. exfalso.
  destruct (Z.of_nat (List.length (n :: names)) <=? max_authors).
  - inversion Hne as [|? ? Hn _]; subst. apply Hn.
    destruct names; [exact Hs|]. cbn [join] in Hs.
    destruct n; [reflexivity|discriminate].
  - apply str_app_empty in Hs. discriminate.
Qed.
